(** * erpc: route matching, procedure chains, error sink and connections

    A shallow embedding of the request-handling core of [@scinorandex/erpc]:
    the error kinds, the route tree and the connection class (the module
    imported as [./websocket]), the procedure builder (lib/middleware.ts),
    the server's error handler and upgrade handler (lib/server.ts), and the
    helpers [removeWrappingSlashes] and [transformERPCError].

    JavaScript objects used as dictionaries ([variables], [res.locals], the
    handler and validator tables) are finite maps over string keys; arrays
    that the code copies and pushes to live in an explicit store of array
    objects; promise chains are sequential computations whose rejection is
    an explicit error value. *)

From Stdlib Require Import ZArith Ascii String.
From stdpp Require Import base option list strings gmap fin_maps pretty.

Set Warnings "-register-all".

Local Open Scope string_scope.
Local Open Scope list_scope.
Local Open Scope Z_scope.

(* ===================================================================== *)
(** ** String primitives used by the router *)
(* ===================================================================== *)

(** [x.startsWith(":")] *)
Definition startsWithColon (x : string) : bool :=
  match x with
  | String c _ => Ascii.eqb c ":"%char
  | EmptyString => false
  end.

(** [x.slice(1, x.length)] *)
Definition slice1 (x : string) : string :=
  match x with
  | String _ rest => rest
  | EmptyString => EmptyString
  end.

(** [str.slice(0, str.length - 1)] *)
Fixpoint dropLast (str : string) : string :=
  match str with
  | EmptyString => EmptyString
  | String c EmptyString => EmptyString
  | String c rest => String c (dropLast rest)
  end.

(** [str[str.length - 1] == "/"] *)
Fixpoint endsWithSlash (str : string) : bool :=
  match str with
  | EmptyString => false
  | String c EmptyString => Ascii.eqb c "/"%char
  | String _ rest => endsWithSlash rest
  end.

(** utils/removeWrappingSlashes.ts: one leading slash is removed; only when
    there is none is one trailing slash removed. *)
Definition removeWrappingSlashes (str : string) : string :=
  match str with
  | String "/"%char rest => rest
  | _ => if endsWithSlash str then dropLast str else str
  end.

(** [str.split(sep)] for a one-character separator: never empty, the
    empty string splits to the one-element list holding it. *)
Fixpoint splitOn (sep : ascii) (str : string) : list string :=
  match str with
  | EmptyString => [EmptyString]
  | String c rest =>
      if Ascii.eqb c sep then EmptyString :: splitOn sep rest
      else match splitOn sep rest with
           | seg :: segs => String c seg :: segs
           | [] => [String c EmptyString]
           end
  end.

(** [str.split("/")] *)
Definition splitSlash (str : string) : list string := splitOn "/" str.

(** [url.startsWith(prefix)] *)
Fixpoint startsWith (prefix url : string) : bool :=
  match prefix, url with
  | EmptyString, _ => true
  | String a prefix', String b url' => Ascii.eqb a b && startsWith prefix' url'
  | String _ _, EmptyString => false
  end.

(** [url.replace(prefix, empty)] when [url] starts with [prefix]: the first
    occurrence is the leading one. *)
Fixpoint dropPrefix (prefix url : string) : string :=
  match prefix, url with
  | String _ prefix', String _ url' => dropPrefix prefix' url'
  | _, _ => url
  end.

(* ===================================================================== *)
(** ** Route trees (lib/websocket.ts) *)
(* ===================================================================== *)

Section Routing.

(** The value a terminal produces ([T] of [RawRoutingEngine<T>]); a
    terminal is the thunk [() => T], kept as the value it stands for. *)
Context {T : Type}.

(** [RawRoutingEngine<T>]: an object whose own keys are enumerated by
    [Object.entries] in insertion order. *)
Inductive RawRoute : Type :=
| RawTerminal (getValue : T)
| RawSubroutes (entries : list (string * RawRoute)).

(** [CompiledRoutingEngine<T> = [string[], CompiledRoutingEngine<T> | (() => T)][]] *)
Inductive Subrouter : Type :=
| Terminal (getValue : T)
| Subtree (heirarchy : list (list string * Subrouter)).

Definition CompiledRoutingEngine : Type := list (list string * Subrouter).

(** [typeof subrouter === "function"] *)
Definition isFunction (subrouter : Subrouter) : bool :=
  match subrouter with
  | Terminal _ => true
  | Subtree _ => false
  end.

(** [compileRouteTree], on the value of one entry: a function is kept, an
    object is compiled entry by entry. *)
Fixpoint compileRoute (subroute : RawRoute) : Subrouter :=
  match subroute with
  | RawTerminal f => Terminal f
  | RawSubroutes h =>
      Subtree
        ((fix entries (h : list (string * RawRoute)) : CompiledRoutingEngine :=
            match h with
            | [] => []
            | (path, subroute) :: h' =>
                (splitSlash (removeWrappingSlashes path), compileRoute subroute)
                :: entries h'
            end) h)
  end.

Definition compileRouteTree (h : list (string * RawRoute)) : CompiledRoutingEngine :=
  match compileRoute (RawSubroutes h) with
  | Subtree c => c
  | Terminal _ => []
  end.

(** [sr[0][0]] is the empty string *)
Definition isIndexPath (path : list string) : bool :=
  match path with
  | x :: _ => bool_decide (x = EmptyString)
  | [] => false
  end.

(** [getIndexHandler], on what the found entry holds: [c.find] takes the
    first entry whose first segment is empty; a function is returned, a
    subtree is searched in the same way. *)
Fixpoint indexHandlerOf (subrouter : Subrouter) : option T :=
  match subrouter with
  | Terminal f => Some f
  | Subtree c =>
      (fix find (c : list (list string * Subrouter)) : option T :=
         match c with
         | [] => None
         | (path, sub) :: c' =>
             if isIndexPath path then indexHandlerOf sub else find c'
         end) c
  end.

Definition getIndexHandler (c : CompiledRoutingEngine) : option T :=
  indexHandlerOf (Subtree c).

(** [Matched<T>] *)
Record Matched : Type := mkMatched {
  variables : gmap string string;
  getValue : T
}.

(** The [checkPathSegments] loop: [path[i]] against [segments[i]] for
    [i < path.length].  The caller has checked
    [path.length <= segments.length], so [segments[i]] is defined; the
    [[]] case for [segments] is never reached.  Variable names are taken
    as ordinary property names (the name [__proto__], which an assignment
    on a plain object does not store, is not told apart). *)
Fixpoint checkPathSegments (path segments : list string)
    (variables : gmap string string) : option (gmap string string) :=
  match path, segments with
  | [], _ => Some variables
  | x :: path', y :: segments' =>
      if bool_decide (x = y) then checkPathSegments path' segments' variables
      else if startsWithColon x then
        checkPathSegments path' segments' (<[slice1 x := y]> variables)
      else None
  | _ :: _, [] => None
  end.

(** [{ ...variables, ...subrouterVars }]: later spreads overwrite. *)
Definition spread (variables subrouterVars : gmap string string) :
    gmap string string :=
  subrouterVars ∪ variables.

(** [matchPathToEndpoint], on a subtree; [checkSubrouters] is the loop
    over its entries and [continue checkSubrouters] the call on the
    remaining ones. *)
Fixpoint matchSubrouter (subrouter : Subrouter) (segments : list string)
    : option Matched :=
  match subrouter with
  | Terminal _ => None
  | Subtree heirarchy =>
      (fix checkSubrouters (heirarchy : list (list string * Subrouter))
         : option Matched :=
         match heirarchy with
         | [] => None
         | (path, subrouter) :: rest =>
             if (length segments <? length path)%nat then checkSubrouters rest
             else if (length path <? length segments)%nat && isFunction subrouter
             then checkSubrouters rest
             else
               match checkPathSegments path segments ∅ with
               | None => checkSubrouters rest
               | Some vars =>
                   if (length path =? length segments)%nat then
                     match subrouter with
                     | Terminal f => Some (mkMatched vars f)
                     | Subtree c =>
                         match indexHandlerOf subrouter with
                         | Some indexHandler =>
                             Some (mkMatched vars indexHandler)
                         | None => checkSubrouters rest
                         end
                     end
                   else
                     match subrouter with
                     | Terminal _ => checkSubrouters rest
                     | Subtree _ =>
                         match
                           matchSubrouter subrouter
                             (drop (length path) segments)
                         with
                         | Some fn =>
                             Some (mkMatched
                                     (spread vars fn.(variables))
                                     fn.(getValue))
                         | None => checkSubrouters rest
                         end
                     end
               end
         end) heirarchy
  end.

Definition matchPathToEndpoint (heirarchy : CompiledRoutingEngine)
    (segments : list string) : option Matched :=
  matchSubrouter (Subtree heirarchy) segments.

End Routing.

Arguments RawRoute : clear implicits.
Arguments Subrouter : clear implicits.
Arguments CompiledRoutingEngine : clear implicits.
Arguments Matched : clear implicits.

(* ===================================================================== *)
(** ** Values and failures (lib/error.ts, lib/utils/errorHandling.ts) *)
(* ===================================================================== *)

(** JavaScript values as they are handed to [res.json], [JSON.stringify]
    and the schema validators.  An object literal is the list of its
    entries in enumeration order. *)
Inductive Value : Type :=
| VUndefined
| VNull
| VBool (b : bool)
| VNum (n : Z)
| VStr (s : string)
| VArr (items : list Value)
| VObj (entries : list (string * Value)).

(** [keyof typeof ErrorMap] *)
Inductive ErrorType : Type :=
| BAD_REQUEST | UNAUTHORIZED | FORBIDDEN | NOT_FOUND | SERVER_ERROR.

Definition ErrorMap (code : ErrorType) : Z :=
  match code with
  | BAD_REQUEST => 400
  | UNAUTHORIZED => 401
  | FORBIDDEN => 403
  | NOT_FOUND => 404
  | SERVER_ERROR => 500
  end.

(** The property name of each kind, as it is serialised under ["type"]. *)
Definition ErrorTypeName (code : ErrorType) : string :=
  match code with
  | BAD_REQUEST => "BAD_REQUEST"
  | UNAUTHORIZED => "UNAUTHORIZED"
  | FORBIDDEN => "FORBIDDEN"
  | NOT_FOUND => "NOT_FOUND"
  | SERVER_ERROR => "SERVER_ERROR"
  end.

(** [ERPCErrorOptions]; a custom code is an integer status. *)
Record ERPCErrorOptions : Type := mkOpts {
  code : ErrorType;
  message : string;
  customCode : option Z
}.

(** What a promise can be rejected with: an [ERPCError], another [Error],
    or a value that is no [Error] at all. *)
Inductive Thrown : Type :=
| ERPCError (opts : ERPCErrorOptions)
| OtherError (message : string)
| NotAnError (v : Value).

Record Transformed : Type := mkTransformed {
  status : Z;
  error : Value
}.

(** [transformERPCError]; [customCode ?? ErrorMap[type]] takes the table
    only when no custom code is present. *)
Definition transformERPCError (err : Thrown) : Transformed :=
  match err with
  | ERPCError opts =>
      {| status := default (ErrorMap opts.(code)) opts.(customCode);
         error := VObj [("type", VStr (ErrorTypeName opts.(code)));
                        ("message", VStr opts.(message))] |}
  | OtherError msg => {| status := 500; error := VStr msg |}
  | NotAnError _ =>
      {| status := 500; error := VStr "Unknown internal server error" |}
  end.

(* ===================================================================== *)
(** ** The response object and Express dispatch *)
(* ===================================================================== *)

(** The part of [express.Response] the library touches: the status code
    (200 until set), [res.locals], and the body that has been sent, if
    one has. *)
Record Response : Type := mkResponse {
  statusCode : Z;
  locals : gmap string Value;
  body : option Value
}.

Definition freshResponse : Response :=
  {| statusCode := 200; locals := ∅; body := None |}.

(** [res.status(s)]: the code is stored as it is; whether it can be
    written is found out when the response is sent. *)
Definition setStatus (s : Z) (res : Response) : Response :=
  {| statusCode := s; locals := res.(locals); body := res.(body) |}.

(** A status code Node can write in a response head. *)
Definition writableStatus (s : Z) : bool := (100 <=? s) && (s <=? 999).

(** [res.json(v)]: sends [v] as the body.  It throws, and sends nothing,
    when a response has been sent already or the status code cannot be
    written; the result is then the message of the error. *)
Definition json (v : Value) (res : Response) : string + Response :=
  match res.(body) with
  | Some _ => inl "Cannot set headers after they are sent to the client"
  | None =>
      if writableStatus res.(statusCode) then
        inr {| statusCode := res.(statusCode); locals := res.(locals);
               body := Some v |}
      else inl ("Invalid status code: " +:+ pretty res.(statusCode))
  end.

(** [Object.entries(result).forEach(([key, value]) => res.locals[key] = value)] *)
Definition assignLocals (result : list (string * Value)) (res : Response)
    : Response :=
  {| statusCode := res.(statusCode);
     locals := foldl (fun acc kv => <[kv.1 := kv.2]> acc) res.(locals) result;
     body := res.(body) |}.

(** Calls observed during one request.  They are bookkeeping of the model:
    the index of a step is its position in [previous]. *)
Inductive Event : Type :=
| StepRun (index : nat)
| HandlerRun (context : gmap string Value)
| SinkRun (err : Thrown).

Record Exchange : Type := mkExchange {
  res : Response;
  trace : list Event
}.

Definition record (e : Event) (x : Exchange) : Exchange :=
  {| res := x.(res); trace := x.(trace) ++ [e] |}.

Definition onRes (f : Response -> Response) (x : Exchange) : Exchange :=
  {| res := f x.(res); trace := x.(trace) |}.

(* ===================================================================== *)
(** ** Procedures (lib/middleware.ts) *)
(* ===================================================================== *)

Section Procedure.

(** [express.Request]; the library only passes it on. *)
Context {Request : Type}.

(** [Middleware<Ret, ExistingParams>]: receives [req] and [res], may act
    on [res], and resolves with an object or rejects. *)
Definition Middleware : Type :=
  Request -> Response -> Response * (Thrown + list (string * Value)).

(** The handler given to [use]: resolves with the response payload. *)
Definition EndpointHandler : Type :=
  Request -> Response -> Response * (Thrown + Value).

(** *** The arrays behind [previous]

    [generateProcedure] copies an array and pushes to the copy, so arrays
    are objects in a store, named by their address; [push] updates the
    array at an address in place. *)
Definition Heap (A : Type) : Type :=
  gmap positive (list Middleware) -> A * gmap positive (list Middleware).

#[global] Instance Heap_ret : MRet Heap := fun A a σ => (a, σ).
#[global] Instance Heap_bind : MBind Heap :=
  fun A B f m σ => let '(a, σ') := m σ in f a σ'.

(** [[...xs]]: a new array object holding the elements of [xs]. *)
Definition newArray (xs : list Middleware) : Heap positive :=
  fun σ => let l := fresh (dom σ) in (l, <[l := xs]> σ).

(** The elements of the array at [l]. *)
Definition readArray (l : positive) : Heap (list Middleware) :=
  fun σ => (default [] (σ !! l), σ).

(** [arr.push(x)] *)
Definition push (l : positive) (x : Middleware) : Heap unit :=
  fun σ => (tt, alter (fun xs => xs ++ [x]) l σ).

(** The object [generateProcedure] returns: its methods close over the
    array [previous]. *)
Record GenerateProcedure : Type := mkProcedure {
  previous : positive
}.

(** [generateProcedure(mw, ctx)]:
    [const previous = [...(ctx?.previous ?? [])]; previous.push(mw);] *)
Definition generateProcedure (mw : Middleware) (ctx : option positive)
    : Heap GenerateProcedure :=
  inherited ← match ctx with
               | Some l => readArray l
               | None => mret []
               end;
  previous ← newArray inherited;
  _ ← push previous mw;
  mret (mkProcedure previous).

(** [extend(append)]:
    [generateProcedure(append, { previous: [...previous] })] *)
Definition extend (p : GenerateProcedure) (append : Middleware)
    : Heap GenerateProcedure :=
  current ← readArray p.(previous);
  copy ← newArray current;
  generateProcedure append (Some copy).

(** [baseProcedure = generateProcedure(async (req, res) => ({}))] *)
Definition baseMiddleware : Middleware := fun _ res => (res, inr []).
Definition baseProcedure : Heap GenerateProcedure :=
  generateProcedure baseMiddleware None.

(** *** Finalising a procedure *)

(** An Express middleware [(req, res, next) => ...]; [next] receives the
    argument it is called with, if any, and the exchange continues from
    there. *)
Definition ExpressMiddleware : Type :=
  Request -> Exchange -> (option Thrown -> Exchange -> Exchange) -> Exchange.

(** The wrapper [use] builds around each element of [previous]:
    [mwFunction(req, res).then(result => { ...; return next(); }).catch(next)].
    A rejection calls [next] with the value the promise was rejected with;
    what Express makes of that value is in [dispatch]. *)
Definition stepWrapper (index : nat) (mwFunction : Middleware)
    : ExpressMiddleware :=
  fun req x next =>
    let x := record (StepRun index) x in
    match mwFunction req x.(res) with
    | (res', inr result) =>
        next None (onRes (fun _ => assignLocals result res') x)
    | (res', inl err) => next (Some err) (onRes (fun _ => res') x)
    end.

(** The last middleware [use] pushes:
    [handler(req, res, res.locals).then(result => res.json({ success: true, result })).catch(next)].
    An error thrown by [res.json] is caught by the same [catch]. *)
Definition handlerWrapper (handler : EndpointHandler) : ExpressMiddleware :=
  fun req x next =>
    let x := record (HandlerRun x.(res).(locals)) x in
    match handler req x.(res) with
    | (res', inr result) =>
        match json (VObj [("success", VBool true); ("result", result)]) res' with
        | inr sent => onRes (fun _ => sent) x
        | inl msg => next (Some (OtherError msg)) (onRes (fun _ => res') x)
        end
    | (res', inl err) => next (Some err) (onRes (fun _ => res') x)
    end.

(** [use(handler)]: the wrapped steps in order, then the wrapped handler. *)
Definition use (p : GenerateProcedure) (handler : EndpointHandler)
    : Heap (list ExpressMiddleware) :=
  steps ← readArray p.(previous);
  mret (imap stepWrapper steps ++ [handlerWrapper handler]).

(** What [next] does with its argument inside a route: no argument, or
    one that is falsy ([undefined], [null], [false], [0], the empty
    string), goes on with the following middleware; the string ["route"]
    leaves the route and the string ["router"] leaves the router, both
    without an error; any other value is an error. *)
Inductive NextAction : Type :=
| Proceed
| LeaveRoute
| LeaveRouter
| Fail (err : Thrown).

Definition nextAction (argument : option Thrown) : NextAction :=
  match argument with
  | None => Proceed
  | Some (NotAnError v) =>
      match v with
      | VUndefined | VNull | VBool false => Proceed
      | VNum n => if n =? 0 then Proceed else Fail (NotAnError v)
      | VStr s =>
          if bool_decide (s = EmptyString) then Proceed
          else if bool_decide (s = "route") then LeaveRoute
          else if bool_decide (s = "router") then LeaveRouter
          else Fail (NotAnError v)
      | _ => Fail (NotAnError v)
      end
  | Some err => Fail err
  end.

(** Express runs the stack of the route in order: [next] called with what
    is no error enters the following middleware, or leaves the route after
    the last one; called with an error it passes over what is left of the
    stack, none of which handles errors, and reaches the error-handling
    middleware, which is entered once.  Where control goes after it has
    left the route without an error (other routes, the final handler) is
    outside the library. *)
Fixpoint dispatch (stack : list ExpressMiddleware)
    (errorHandler : Thrown -> Request -> Response -> Response)
    (req : Request) (err : option Thrown) (x : Exchange) : Exchange :=
  match nextAction err with
  | Fail e => onRes (errorHandler e req) (record (SinkRun e) x)
  | LeaveRoute | LeaveRouter => x
  | Proceed =>
      match stack with
      | [] => x
      | mw :: rest => mw req x (dispatch rest errorHandler req)
      end
  end.

(** One request through a finalised procedure. *)
Definition handleRequest (stack : list ExpressMiddleware)
    (errorHandler : Thrown -> Request -> Response -> Response)
    (req : Request) (res0 : Response) : Exchange :=
  dispatch stack errorHandler req None {| res := res0; trace := [] |}.

(** *** The default error handler (lib/server.ts) *)

Record ServerConstructorOptions : Type := mkServerOptions {
  logErrors : option bool;
  errorHandler : option (Thrown -> Request -> Response -> Response);
  apiPrefix : option string
}.

(** [this.LOG_ERRORS = !(opts.logErrors === false)] *)
Definition LOG_ERRORS (opts : ServerConstructorOptions) : bool :=
  match opts.(logErrors) with
  | Some false => false
  | _ => true
  end.

(** The error-handling middleware the server installs ([console.error],
    which only logs, is left out).  When its [res.json] throws, the
    middleware has written no body: the response is left with the status
    it may have set, and the answer is up to Express's final handler. *)
Definition serverErrorHandler (opts : ServerConstructorOptions)
    (err : Thrown) (req : Request) (res : Response) : Response :=
  match opts.(errorHandler) with
  | Some custom => custom err req res
  | None =>
      let t := transformERPCError err in
      let res := if (res.(statusCode) =? 200) then setStatus t.(status) res
                 else res in
      match json (VObj [("success", VBool false);
                        ("error", if LOG_ERRORS opts then t.(error) else VUndefined)])
                 res with
      | inr sent => sent
      | inl _ => res
      end
  end.

End Procedure.

Arguments Middleware : clear implicits.
Arguments EndpointHandler : clear implicits.
Arguments ExpressMiddleware : clear implicits.
Arguments ServerConstructorOptions : clear implicits.

(* ===================================================================== *)
(** ** Connections and the upgrade handler (lib/websocket.ts, lib/server.ts) *)
(* ===================================================================== *)

(** What is handed to the socket: a literal text, or
    [JSON.stringify(v)] of a value. *)
Inductive Wire : Type :=
| Text (s : string)
| Stringified (v : Value).

(** Calls made on the [WebSocket]. *)
Inductive SocketCall : Type :=
| Send (data : Wire)
| Close (code : Z) (reason : Wire).

(** A schema's [parseAsync]: the parsed value, or the failure message. *)
Abbreviation Validator := (Value -> string + Value)%type (only parsing).

(** A handler registered with [on]: the calls it makes on sockets, and the
    error it is rejected with, if any.  What else a handler may do to the
    connection it was registered on (registering handlers in its turn) is
    not part of this description. *)
Abbreviation EventHandler :=
  (Value -> list SocketCall * option Thrown)%type (only parsing).

(** How the promise of an [async] function ends. *)
Inductive Settlement : Type :=
| Resolved
| Rejected (err : Thrown).

(** A [Connection]: its handler table, the validators it was built with,
    the calls made on its socket so far and, as bookkeeping of the model,
    the handler invocations so far. *)
Record Connection : Type := mkConnection {
  socketEventHandlerMap : gmap string EventHandler;
  connValidators : gmap string Validator;
  socket : list SocketCall;
  invoked : list (string * Value)
}.

(** [new Connection(ws, req, validators)] *)
Definition newConnection (validators : gmap string Validator) : Connection :=
  {| socketEventHandlerMap := ∅; connValidators := validators;
     socket := []; invoked := [] |}.

Definition socketCalls (calls : list SocketCall) (conn : Connection)
    : Connection :=
  {| socketEventHandlerMap := conn.(socketEventHandlerMap);
     connValidators := conn.(connValidators);
     socket := conn.(socket) ++ calls;
     invoked := conn.(invoked) |}.

(** [emit(eventName, data)]: [this.socket.send(JSON.stringify({ eventName, data }))] *)
Definition emit (eventName : string) (data : Value) (conn : Connection)
    : Connection :=
  socketCalls
    [Send (Stringified (VObj [("eventName", VStr eventName); ("data", data)]))]
    conn.

(** [on(eventName, handler)]: [this.socketEventHandlerMap.set(eventName, handler)] *)
Definition on (eventName : string) (handler : EventHandler) (conn : Connection)
    : Connection :=
  {| socketEventHandlerMap := <[eventName := handler]> conn.(socketEventHandlerMap);
     connValidators := conn.(connValidators);
     socket := conn.(socket);
     invoked := conn.(invoked) |}.

(** The property [key] of an object value, if it has one. *)
Fixpoint objGet (key : string) (entries : list (string * Value)) : option Value :=
  match entries with
  | [] => None
  | (k, v) :: rest => if bool_decide (k = key) then Some v else objGet key rest
  end.

(** [reqValidator = z.object({ eventName: z.string(), data: z.any() })]:
    an object whose [eventName] is a string; [data] is whatever is there. *)
Definition reqValidator (v : Value) : option (string * Value) :=
  match v with
  | VObj entries =>
      match objGet "eventName" entries with
      | Some (VStr eventName) =>
          Some (eventName, default VUndefined (objGet "data" entries))
      | _ => None
      end
  | _ => None
  end.

Section Listener.

(** [JSON.parse]: [None] when it throws. *)
Variable JSON_parse : string -> option Value.

(** The body of the [try] block of the message listener: the connection
    afterwards and the error thrown inside the block, if any. *)
Definition tryDispatch (conn : Connection) (stringified : string)
    : Connection * option Thrown :=
  match JSON_parse stringified with
  | None => (conn, Some (OtherError "Unexpected token in JSON"))
  | Some parsed =>
      match reqValidator parsed with
      | None => (conn, Some (OtherError "Invalid envelope"))
      | Some (eventName, data) =>
          match conn.(socketEventHandlerMap) !! eventName with
          | None =>
              (conn, Some (OtherError
                (String.append "Could not find a eventHandler for event: " eventName)))
          | Some handler =>
              match conn.(connValidators) !! eventName with
              | None => (conn, Some (OtherError "Cannot read properties of undefined"))
              | Some validator =>
                  match validator data with
                  | inl msg => (conn, Some (OtherError msg))
                  | inr parsedData =>
                      let '(calls, failure) := handler parsedData in
                      ({| socketEventHandlerMap := conn.(socketEventHandlerMap);
                          connValidators := conn.(connValidators);
                          socket := conn.(socket) ++ calls;
                          invoked := conn.(invoked) ++ [(eventName, parsedData)] |},
                       failure)
                  end
              end
          end
      end
  end.

(** The listener [this.socket.on("message", async (data) => { try { ... } catch (err) {} })]:
    whatever the block throws is caught and dropped. *)
Definition onMessage (conn : Connection) (stringified : string)
    : Connection * Settlement :=
  match tryDispatch conn stringified with
  | (conn', Some _) => (conn', Resolved)
  | (conn', None) => (conn', Resolved)
  end.

End Listener.

(** [HeirarchyEnd]: the validators of a connection route and its setup
    handler, which receives [{ conn, params, query }]. *)
Record HeirarchyEnd : Type := mkHeirarchyEnd {
  validators : gmap string Validator;
  handler : Connection -> gmap string string -> gmap string string ->
            Connection * option Thrown
}.

(** The query object built from [queryParams]:
    [queryParams.split("&").reduce((acc, curr) => { const [key, val] = curr.split("="); return { ...acc, [key]: val ?? "true" }; }, {})] *)
Definition parseQuery (queryParams : option string) : gmap string string :=
  match queryParams with
  | None | Some EmptyString => ∅
  | Some q =>
      foldl (fun acc curr =>
               let parts := splitOn "=" curr in
               <[default EmptyString (parts !! 0%nat) := default "true" (parts !! 1%nat)]> acc)
            ∅ (splitOn "&" q)
  end.

Definition stabilize : string := "@scinorandex/erpc -- stabilize".

(** *** [JSON.stringify] and what [ws] accepts in [close]

    Strings hold the UTF-8 encoding of their text, so the length of a
    string is its length in bytes. *)

Definition hexDigit (n : nat) : ascii :=
  match n with
  | 0 => "0" | 1 => "1" | 2 => "2" | 3 => "3" | 4 => "4" | 5 => "5"
  | 6 => "6" | 7 => "7" | 8 => "8" | 9 => "9" | 10 => "a" | 11 => "b"
  | 12 => "c" | 13 => "d" | 14 => "e" | _ => "f"
  end%nat%char.

(** One character inside a JSON string: the quote, the backslash and the
    control characters are escaped, everything else stands for itself. *)
Definition escapeChar (c : ascii) : string :=
  let n := nat_of_ascii c in
  let backslash := String "092"%char in
  if (n =? 8)%nat then backslash "b"
  else if (n =? 9)%nat then backslash "t"
  else if (n =? 10)%nat then backslash "n"
  else if (n =? 12)%nat then backslash "f"
  else if (n =? 13)%nat then backslash "r"
  else if (n =? 34)%nat then backslash (String "034"%char EmptyString)
  else if (n =? 92)%nat then backslash (String "092"%char EmptyString)
  else if (n <? 32)%nat then
    backslash ("u00" +:+ String (hexDigit (n / 16))
                           (String (hexDigit (n mod 16)) EmptyString))
  else String c EmptyString.

Fixpoint escapeChars (s : string) : string :=
  match s with
  | EmptyString => EmptyString
  | String c rest => escapeChar c +:+ escapeChars rest
  end.

Definition quoteJSON (s : string) : string :=
  String "034"%char (escapeChars s +:+ String "034"%char EmptyString).

Fixpoint commaSeparated (parts : list string) : string :=
  match parts with
  | [] => EmptyString
  | [x] => x
  | x :: rest => x +:+ "," +:+ commaSeparated rest
  end.

(** [JSON.stringify(v)]; [None] stands for [undefined].  A property whose
    value is [undefined] is left out, an array item that is [undefined] is
    written [null]. *)
Fixpoint stringify (v : Value) : option string :=
  match v with
  | VUndefined => None
  | VNull => Some "null"
  | VBool true => Some "true"
  | VBool false => Some "false"
  | VNum n => Some (pretty n)
  | VStr s => Some (quoteJSON s)
  | VArr items =>
      Some ("[" +:+
            commaSeparated
              ((fix each (items : list Value) : list string :=
                  match items with
                  | [] => []
                  | item :: rest => default "null" (stringify item) :: each rest
                  end) items) +:+ "]")
  | VObj entries =>
      Some ("{" +:+
            commaSeparated
              ((fix each (entries : list (string * Value)) : list string :=
                  match entries with
                  | [] => []
                  | kv :: rest =>
                      match stringify kv.2 with
                      | Some text => (quoteJSON kv.1 +:+ ":" +:+ text) :: each rest
                      | None => each rest
                      end
                  end) entries) +:+ "}")
  end.

(** The text handed to the socket, if there is one. *)
Definition wireText (w : Wire) : option string :=
  match w with
  | Text s => Some s
  | Stringified v => stringify v
  end.

(** [isValidStatusCode] of [ws]: the close codes it lets through. *)
Definition isValidStatusCode (code : Z) : bool :=
  ((1000 <=? code) && (code <=? 1014) &&
   negb (code =? 1004) && negb (code =? 1005) && negb (code =? 1006))
  || ((3000 <=? code) && (code <=? 4999)).

(** [ws.close(code, reason)] on an open socket sends the close frame when
    the code is valid and the reason is at most 123 bytes long, and throws
    otherwise. *)
Definition closeAccepted (code : Z) (reason : Wire) : bool :=
  isValidStatusCode code &&
  match wireText reason with
  | Some text => (String.length text <=? 123)%nat
  | None => true
  end.

(** A close has been asked for on the socket: [send] and [close] have no
    effect any more. *)
Definition closing (conn : Connection) : bool :=
  existsb (fun call => match call with Close _ _ => true | Send _ => false end)
          conn.(socket).

(** The callback of [handleUpgrade]: run the setup handler on a new
    connection; then either send the ready text or close the socket.  The
    calls recorded are those that had an effect: nothing is recorded on a
    socket that is closing already, nor when [ws.close] throws (the throw
    happens inside the [catch] callback and nothing handles it). *)
Definition upgraded (endpoint : Matched HeirarchyEnd)
    (query : gmap string string) : Connection :=
  let he := endpoint.(getValue) in
  match he.(handler) (newConnection he.(validators)) endpoint.(variables) query with
  | (conn, None) =>
      if closing conn then conn else socketCalls [Send (Text stabilize)] conn
  | (conn, Some err) =>
      let t := transformERPCError err in
      let code := 4000 + t.(status) in
      let reason := Stringified (VObj [("error", t.(error))]) in
      if closing conn then conn
      else if closeAccepted code reason then socketCalls [Close code reason] conn
      else conn
  end.

(** The handler [createWebSocketHandler] returns, on one upgrade request:
    the route tree is compiled on first use and kept; the result is the
    connection when the path matched an endpoint. *)
Definition webSocketHandler (apiPrefix : option string)
    (wsRouter : list (string * RawRoute HeirarchyEnd))
    (compiledWsRouter : option (CompiledRoutingEngine HeirarchyEnd))
    (url : string)
    : option (CompiledRoutingEngine HeirarchyEnd) * option Connection :=
  let compiled := match compiledWsRouter with
                  | Some c => c
                  | None => compileRouteTree wsRouter
                  end in
  let url := match apiPrefix with
             | Some prefix => if startsWith prefix url then dropPrefix prefix url else url
             | None => url
             end in
  let parts := splitOn "?" url in
  let path := default EmptyString (parts !! 0%nat) in
  let query := parseQuery (parts !! 1%nat) in
  (Some compiled,
   match matchPathToEndpoint compiled (splitSlash (removeWrappingSlashes path)) with
   | Some endpoint => Some (upgraded endpoint query)
   | None => None
   end).

(* ===================================================================== *)
(** ** Notions used to state the properties *)
(* ===================================================================== *)

Section RoutingNotions.

Context {T : Type}.

(** One iteration of [checkSubrouters] on the entry [(path, subrouter)]:
    the value it returns, or [None] when the loop moves on. *)
Definition tryEntry (path : list string) (subrouter : Subrouter T)
    (segments : list string) : option (Matched T) :=
  if (length segments <? length path)%nat then None
  else if (length path <? length segments)%nat && isFunction subrouter then None
  else
    match checkPathSegments path segments ∅ with
    | None => None
    | Some vars =>
        if (length path =? length segments)%nat then
          match subrouter with
          | Terminal f => Some (mkMatched vars f)
          | Subtree c =>
              match getIndexHandler c with
              | Some indexHandler => Some (mkMatched vars indexHandler)
              | None => None
              end
          end
        else
          match subrouter with
          | Terminal _ => None
          | Subtree c =>
              match matchPathToEndpoint c (drop (length path) segments) with
              | Some fn =>
                  Some (mkMatched (spread vars fn.(variables)) fn.(getValue))
              | None => None
              end
          end
    end.

(** A template segment is a variable when it starts with [":"], a literal
    otherwise.  The literal segments of [path] agree with [segments] when
    every literal of the template is found at its position. *)
Definition literalsAgree (path segments : list string) : Prop :=
  ∀ (i : nat) (x : string),
    path !! i = Some x → startsWithColon x = false → segments !! i = Some x.

(** An entry matches the input: a terminal at equal length; a subtree at
    equal length when its index lookup finds a terminal; a subtree at
    greater length when one of its entries matches the remainder. *)
Inductive EntryMatches : list string * Subrouter T → list string → Prop :=
| match_terminal path f segments :
    literalsAgree path segments →
    length segments = length path →
    EntryMatches (path, Terminal f) segments
| match_index path c segments :
    literalsAgree path segments →
    length segments = length path →
    is_Some (getIndexHandler c) →
    EntryMatches (path, Subtree c) segments
| match_deeper path c e segments :
    literalsAgree path segments →
    (length path < length segments)%nat →
    e ∈ c →
    EntryMatches e (drop (length path) segments) →
    EntryMatches (path, Subtree c) segments.

(** The specification's wording of the same condition.  An empty-key index
    entry is an entry declared under the empty key, whose template is the
    single empty segment. *)
Definition hasIndexEntry (c : CompiledRoutingEngine T) : Prop :=
  ∃ sub, ([EmptyString], sub) ∈ c.

Definition specEntryMatches (e : list string * Subrouter T)
    (segments : list string) : Prop :=
  literalsAgree e.1 segments ∧
  match e.2 with
  | Terminal _ => length segments = length e.1
  | Subtree c =>
      (length e.1 ≤ length segments)%nat ∧
      (is_Some (matchPathToEndpoint c (drop (length e.1) segments))
       ∨ hasIndexEntry c)
  end.

End RoutingNotions.

Section ChainNotions.

Context {Request : Type}.

(** The steps of a list all resolve, one after the other on the same
    response object: each starts from the response as the previous one and
    the merge of its result left it. *)
Inductive StepsSucceed (req : Request)
    : list (Middleware Request) → Response → Response → Prop :=
| steps_done res : StepsSucceed req [] res res
| steps_next mw rest res res' result res'' :
    mw req res = (res', inr result) →
    StepsSucceed req rest (assignLocals result res') res'' →
    StepsSucceed req (mw :: rest) res res''.

(** The failures handed to the error handler, in order. *)
Definition sinkCalls (t : list Event) : list Thrown :=
  omap (λ e, match e with SinkRun err => Some err | _ => None end) t.

(** The value an object's entries give to [key] when they are assigned
    one after the other: that of the last entry for [key]. *)
Definition lastBinding (key : string) (result : list (string * Value))
    : option Value :=
  objGet key (reverse result).

(** A step that resolves with [result] and leaves [res] alone:
    [async (req, res) => result]. *)
Definition resolvesWith (result : list (string * Value)) : Middleware Request :=
  λ _ res, (res, inr result).

End ChainNotions.

Section ListenerNotions.

Variable JSON_parse : string → option Value.

(** An inbound frame that is not dispatched: it does not parse, or is not
    an envelope with a string [eventName], or names an event without a
    registered handler, or names an event without a declared schema, or
    carries a payload the event's schema rejects. *)
Definition frameRejected (conn : Connection) (stringified : string) : Prop :=
  JSON_parse stringified = None ∨
  (∃ parsed, JSON_parse stringified = Some parsed ∧ reqValidator parsed = None) ∨
  (∃ parsed eventName data,
     JSON_parse stringified = Some parsed ∧
     reqValidator parsed = Some (eventName, data) ∧
     (socketEventHandlerMap conn !! eventName = None ∨
      connValidators conn !! eventName = None ∨
      ∃ validator msg,
        connValidators conn !! eventName = Some validator ∧
        validator data = inl msg)).

End ListenerNotions.

(* ===================================================================== *)
(** ** Request validation steps (lib/middleware.ts) *)
(* ===================================================================== *)

Section Validation.

Context {Request : Type}.

(** [req.body], as the body parser left it. *)
Variable reqBody : Request → Value.

(** The entries of [req.query]. *)
Variable reqQuery : Request → list (string * Value).

(** [Buffer.from(s, "base64url").toString()] *)
Variable base64urlDecode : string → string.

(** [JSON.parse]: the value, or the message of the error it throws. *)
Variable JSON_parse : string → string + Value.

(** The step [input] appends:
    [try { return { input: await checker.parseAsync(req.body) }; }
     catch (err) { throw new ERPCError({ code: "BAD_REQUEST", message: err.message }); }] *)
Definition bodyValidator (checker : Validator) : Middleware Request :=
  λ req res,
    match checker (reqBody req) with
    | inr parsed => (res, inr [("input", parsed)])
    | inl msg => (res, inl (ERPCError (mkOpts BAD_REQUEST msg None)))
    end.

(** [input(checker)]: [extend(bodyValidator)] *)
Definition input (p : GenerateProcedure) (checker : Validator)
    : Heap GenerateProcedure :=
  extend p (bodyValidator checker).

(** The value the query checker is given: the decoded and parsed
    [__erpc_query] when that parameter is a string, [req.query] otherwise. *)
Definition queryOf (req : Request) : string + Value :=
  match objGet "__erpc_query" (reqQuery req) with
  | Some (VStr encoded) => JSON_parse (base64urlDecode encoded)
  | _ => inr (VObj (reqQuery req))
  end.

(** The step [query] appends; a failure of [JSON.parse] or of the checker
    is caught and thrown again as BAD_REQUEST with the same message. *)
Definition queryValidator (checker : Validator) : Middleware Request :=
  λ req res,
    match queryOf req with
    | inl msg => (res, inl (ERPCError (mkOpts BAD_REQUEST msg None)))
    | inr q =>
        match checker q with
        | inr parsed => (res, inr [("query", parsed)])
        | inl msg => (res, inl (ERPCError (mkOpts BAD_REQUEST msg None)))
        end
    end.

(** [query(checker)]: [extend(queryValidator)] *)
Definition query (p : GenerateProcedure) (checker : Validator)
    : Heap GenerateProcedure :=
  extend p (queryValidator checker).

End Validation.

(* ===================================================================== *)
(** ** Routers and the server's connection routes (lib/router.ts, lib/server.ts) *)
(* ===================================================================== *)

(** A [WebSocketRouter] object is mutated after it has been stored in its
    parent, so these objects live in a store.  A property holds either an
    endpoint function [() => ({ validators, handler })] or a reference to
    another router object. *)
Inductive WsNode : Type :=
| WsFn (he : HeirarchyEnd)
| WsRef (l : positive).

(** Keys for which an object behaves as an insertion-ordered dictionary:
    not an array index (those start with a digit and are enumerated first)
    and not [__proto__] (assigning it sets the prototype). *)
Definition ordinaryKey (key : string) : bool :=
  match key with
  | String c _ =>
      negb ((48 <=? nat_of_ascii c)%nat && (nat_of_ascii c <=? 57)%nat)
      && negb (bool_decide (key = "__proto__"))
  | EmptyString => true
  end.

(** [obj[key] = v] on the own properties of [obj], in enumeration order: an
    existing property keeps its place, a new one comes last. *)
Fixpoint setProp (key : string) (v : WsNode) (props : list (string * WsNode))
    : list (string * WsNode) :=
  match props with
  | [] => [(key, v)]
  | (k, old) :: rest =>
      if bool_decide (k = key) then (k, v) :: rest
      else (k, old) :: setProp key v rest
  end.

(** [obj[key]] *)
Fixpoint getProp (key : string) (props : list (string * WsNode))
    : option WsNode :=
  match props with
  | [] => None
  | (k, v) :: rest => if bool_decide (k = key) then Some v else getProp key rest
  end.

(** The connection-route side of a [RouterT]: its [wsRouter] object and
    the path [subroutedAt] returns. *)
Record RouterT : Type := mkRouterT {
  wsRouter : positive;
  subroutedAt : string
}.

(** [Router(path, parentWsRouter)]:
    [const wsRouter = {}; parentWsRouter[path] = wsRouter;]
    The result is [None] for a key outside [ordinaryKey] or a parent that
    is not in the store. *)
Definition Router (path : string) (parentWsRouter : positive)
    (σ : gmap positive (list (string * WsNode)))
    : option (RouterT * gmap positive (list (string * WsNode))) :=
  if ordinaryKey path then
    match σ !! parentWsRouter with
    | Some parent =>
        let l := fresh (dom σ) in
        Some (mkRouterT l path,
              <[parentWsRouter := setProp path (WsRef l) parent]> (<[l := []]> σ))
    | None => None
    end
  else None.

(** [router.sub(subRouterPath)]: [Router(subRouterPath, wsRouter)] *)
Definition sub (router : RouterT) (subRouterPath : string)
    (σ : gmap positive (list (string * WsNode)))
    : option (RouterT * gmap positive (list (string * WsNode))) :=
  Router subRouterPath router.(wsRouter) σ.

(** [router.ws(path, { validators }, handler)]:
    [wsRouter[path] = () => ({ validators, handler })].  The description
    covers ordinary keys; for the others (an array index is enumerated
    before every other key, [__proto__] is no property) it gives [None]. *)
Definition ws (router : RouterT) (path : string) (he : HeirarchyEnd)
    (σ : gmap positive (list (string * WsNode)))
    : option (gmap positive (list (string * WsNode))) :=
  if ordinaryKey path then
    match σ !! router.(wsRouter) with
    | Some props => Some (<[router.(wsRouter) := setProp path (WsFn he) props]> σ)
    | None => None
    end
  else None.

(** The connection-route state of a [Server]: [rawWsRouter], [rootRouter]
    and the tree compiled at the first upgrade request. *)
Record Server : Type := mkServer {
  rawWsRouter : positive;
  rootRouter : RouterT;
  compiledWsRouter : option (CompiledRoutingEngine HeirarchyEnd)
}.

(** The constructor of [Server]: with a router,
    [rawWsRouter = { "/": router.wsRouter }]; without one,
    [rawWsRouter = {}; rootRouter = Router("/", rawWsRouter)]. *)
Definition newServer (router : option RouterT)
    (σ : gmap positive (list (string * WsNode)))
    : option (Server * gmap positive (list (string * WsNode))) :=
  let raw := fresh (dom σ) in
  match router with
  | Some r =>
      Some (mkServer raw r None, <[raw := [("/", WsRef r.(wsRouter))]]> σ)
  | None =>
      match Router "/" raw (<[raw := []]> σ) with
      | Some (r, σ') => Some (mkServer raw r None, σ')
      | None => None
      end
  end.

(** The [RawRoutingEngine] read off the object at [l], as
    [Object.entries] and [typeof subroute === "function"] see it when
    [compileRouteTree] walks it.  The walk is bounded by [fuel]; [None]
    when the bound is reached or an object is missing. *)
Fixpoint snapshot (fuel : nat) (σ : gmap positive (list (string * WsNode)))
    (l : positive) : option (list (string * RawRoute HeirarchyEnd)) :=
  match fuel with
  | O => None
  | S fuel' =>
      match σ !! l with
      | None => None
      | Some props =>
          mapM (λ kv : string * WsNode,
                  match kv.2 with
                  | WsFn he => Some (kv.1, RawTerminal he)
                  | WsRef l' =>
                      match snapshot fuel' σ l' with
                      | Some subroutes => Some (kv.1, RawSubroutes subroutes)
                      | None => None
                      end
                  end) props
      end
  end.

(** [this.rawWsRouter["/"]] as a route tree. *)
Definition rootRoutes (fuel : nat) (server : Server)
    (σ : gmap positive (list (string * WsNode)))
    : option (list (string * RawRoute HeirarchyEnd)) :=
  match σ !! server.(rawWsRouter) with
  | Some props =>
      match getProp "/" props with
      | Some (WsRef l) => snapshot fuel σ l
      | _ => None
      end
  | None => None
  end.

(* ===================================================================== *)
(** ** Uploaded files (lib/utils/zodFile.ts) *)
(* ===================================================================== *)

(** What the check of [zodFile] looks at in the value it is given: whether
    [v._events] can be read at all, whether [v._events.error] is a
    function, and [v.mimetype] when it is a string. *)
Inductive Candidate : Type :=
| NoEvents
| WithEvents (errorIsFunction : bool) (mimetype : option string).

(** [mime] is the string [filetype]: [filetype !== mime] is false. *)
Definition sameMime (filetype : string) (mime : option string) : bool :=
  match mime with
  | Some m => bool_decide (filetype = m)
  | None => false
  end.

(** [filetype.includes(mime)] *)
Definition includesMime (filetype : list string) (mime : option string) : bool :=
  match mime with
  | Some m => bool_decide (m ∈ filetype)
  | None => false
  end.

(** The function given to [z.custom] by [zodFile(filetype)], for a
    [filetype] that is one string or an array of strings: its boolean
    result, or [None] when reading [v._events.error] throws. *)
Definition zodFileCheck (filetype : string + list string) (v : Candidate)
    : option bool :=
  match v with
  | NoEvents => None
  | WithEvents errorIsFunction mime =>
      if negb errorIsFunction then Some false
      else
        match filetype with
        | inl single => if negb (sameMime single mime) then Some false else Some true
        | inr several =>
            if negb (includesMime several mime) then Some false else Some true
        end
  end.

(* ===================================================================== *)
(** ** Further notions *)
(* ===================================================================== *)

(** [segments.join(sep)] *)
Fixpoint joinWith (sep : ascii) (segments : list string) : string :=
  match segments with
  | [] => EmptyString
  | [x] => x
  | x :: rest => String.append x (String sep (joinWith sep rest))
  end.

(** The character [c] occurs in [str]. *)
Fixpoint occurs (c : ascii) (str : string) : bool :=
  match str with
  | EmptyString => false
  | String a rest => Ascii.eqb a c || occurs c rest
  end.

Section TreeNotions.

Context {T : Type}.

(** The terminals of a raw tree and of a compiled tree, in declaration
    order. *)
Fixpoint rawTerminals (r : RawRoute T) : list T :=
  match r with
  | RawTerminal f => [f]
  | RawSubroutes h =>
      (fix entries (h : list (string * RawRoute T)) : list T :=
         match h with
         | [] => []
         | kv :: h' => rawTerminals kv.2 ++ entries h'
         end) h
  end.

Fixpoint terminals (s : Subrouter T) : list T :=
  match s with
  | Terminal f => [f]
  | Subtree c =>
      (fix entries (c : list (list string * Subrouter T)) : list T :=
         match c with
         | [] => []
         | e :: c' => terminals e.2 ++ entries c'
         end) c
  end.

(** All template segments of a compiled tree. *)
Fixpoint templateSegments (s : Subrouter T) : list string :=
  match s with
  | Terminal _ => []
  | Subtree c =>
      (fix entries (c : list (list string * Subrouter T)) : list string :=
         match c with
         | [] => []
         | e :: c' => e.1 ++ templateSegments e.2 ++ entries c'
         end) c
  end.

(** All templates of a compiled tree. *)
Fixpoint templates (s : Subrouter T) : list (list string) :=
  match s with
  | Terminal _ => []
  | Subtree c =>
      (fix entries (c : list (list string * Subrouter T)) : list (list string) :=
         match c with
         | [] => []
         | e :: c' => e.1 :: templates e.2 ++ entries c'
         end) c
  end.

End TreeNotions.

Section RawRouteInduction.

Context {T : Type} (P : RawRoute T → Prop).
Hypothesis Hterminal : ∀ f, P (RawTerminal f).
Hypothesis Hsubroutes : ∀ h, Forall (λ kv, P kv.2) h → P (RawSubroutes h).

Fixpoint RawRoute_nested_ind (r : RawRoute T) : P r :=
  match r with
  | RawTerminal f => Hterminal f
  | RawSubroutes h =>
      Hsubroutes h
        ((fix entries (l : list (string * RawRoute T))
            : Forall (λ kv, P kv.2) l :=
            match l with
            | [] => List.Forall_nil _
            | kv :: l' =>
                List.Forall_cons _ kv l' (RawRoute_nested_ind kv.2) (entries l')
            end) h)
  end.

End RawRouteInduction.

Section ProcedureNotions.

Context {Request : Type}.

(** [p.extend(s1).extend(s2)...]: the procedure reached by extending with
    each step of a list in turn. *)
Fixpoint extendAll (p : GenerateProcedure) (ss : list (Middleware Request))
    : Heap GenerateProcedure :=
  match ss with
  | [] => mret p
  | s :: ss' => child ← extend p s; extendAll child ss'
  end.

End ProcedureNotions.

(** The text a peer receives for what was handed to the socket, given
    [JSON.stringify]. *)
Definition delivered (JSON_stringify : Value → string) (w : Wire) : string :=
  match w with
  | Text s => s
  | Stringified v => JSON_stringify v
  end.





(** One upgrade request to a server whose routes are in the store: the
    tree is read and compiled when none has been kept yet, as
    [createWebSocketHandler] does with [this.compiledWsRouter]. *)
Definition onUpgrade (fuel : nat) (apiPrefix : option string) (server : Server)
    (σ : gmap positive (list (string * WsNode))) (url : string)
    : option (Server * option Connection) :=
  match
    match server.(compiledWsRouter) with
    | Some c => Some (webSocketHandler apiPrefix [] (Some c) url)
    | None =>
        match rootRoutes fuel server σ with
        | Some routes => Some (webSocketHandler apiPrefix routes None url)
        | None => None
        end
    end
  with
  | Some (kept, conn) =>
      Some (mkServer server.(rawWsRouter) server.(rootRouter) kept, conn)
  | None => None
  end.

(* ===================================================================== *)
(** * Properties *)
(* ===================================================================== *)

(** ** Route matching *)

Section SubrouterInduction.

Context {T : Type} (P : Subrouter T → Prop).
Hypothesis Hterminal : ∀ f, P (Terminal f).
Hypothesis Hsubtree : ∀ h, Forall (λ e, P e.2) h → P (Subtree h).

Fixpoint Subrouter_nested_ind (s : Subrouter T) : P s :=
  match s with
  | Terminal f => Hterminal f
  | Subtree h =>
      Hsubtree h
        ((fix entries (l : list (list string * Subrouter T))
            : Forall (λ e, P e.2) l :=
            match l with
            | [] => List.Forall_nil _
            | e :: l' =>
                List.Forall_cons _ e l' (Subrouter_nested_ind e.2) (entries l')
            end) h)
  end.

End SubrouterInduction.

Section RoutingFacts.

Context {T : Type}.
Implicit Types (h c : CompiledRoutingEngine T) (sub : Subrouter T).
Implicit Types (path segments : list string) (e : list string * Subrouter T).

Lemma matchPathToEndpoint_nil segments :
  matchPathToEndpoint (T:=T) [] segments = None.
Proof. reflexivity. Qed.

Lemma matchPathToEndpoint_cons path sub h segments :
  matchPathToEndpoint ((path, sub) :: h) segments =
  match tryEntry path sub segments with
  | Some m => Some m
  | None => matchPathToEndpoint h segments
  end.
Proof.
  unfold tryEntry, matchPathToEndpoint, getIndexHandler. cbn [matchSubrouter].
  destruct (length segments <? length path)%nat; [done|].
  destruct ((length path <? length segments)%nat && isFunction sub); [done|].
  destruct (checkPathSegments path segments ∅) as [vars|]; [|done].
  destruct (length path =? length segments)%nat.
  all: destruct sub as [f|c]; [reflexivity|].
  all: lazymatch goal with
       | |- match ?X with _ => _ end =
            match match ?Y with _ => _ end with _ => _ end =>
           change Y with X; destruct X; reflexivity
       end.
Qed.

Lemma matchPathToEndpoint_app pre h segments :
  matchPathToEndpoint (pre ++ h) segments =
  match matchPathToEndpoint pre segments with
  | Some m => Some m
  | None => matchPathToEndpoint h segments
  end.
Proof.
  induction pre as [|[path sub] pre IH]; [reflexivity|].
  rewrite <- app_comm_cons, !matchPathToEndpoint_cons, IH.
  by destruct (tryEntry path sub segments).
Qed.

(** The segment loop succeeds exactly when the literals agree; variable
    segments never make it fail. *)
Lemma checkPathSegments_is_Some path segments (vars : gmap string string) :
  (length path ≤ length segments)%nat →
  is_Some (checkPathSegments path segments vars) ↔ literalsAgree path segments.
Proof.
  revert segments vars.
  induction path as [|x path IH]; intros [|y segments] vars Hlen;
    cbn [checkPathSegments]; simpl in Hlen; try lia.
  - split; [|by eauto]. by intros _ i x.
  - split; [|by eauto]. by intros _ i x.
  - assert (Htail : literalsAgree (x :: path) (y :: segments) ↔
                    (startsWithColon x = false → x = y) ∧
                    literalsAgree path segments).
    { split.
      - intros H. split.
        + intros Hx. specialize (H 0%nat x eq_refl Hx). by injection H.
        + intros i z Hz. apply (H (S i) z Hz).
      - intros [H0 H] [|i] z Hz Hlit; simpl in *.
        + injection Hz as ->. by rewrite (H0 Hlit).
        + by apply H. }
    rewrite Htail. case_bool_decide as Hxy.
    + rewrite IH by lia. split; [by split|by intros [_ ?]].
    + destruct (startsWithColon x) eqn:Hvar.
      * rewrite IH by lia. split; [by split|by intros [_ ?]].
      * split; [by intros [? [=]]|]. intros [H0 _]. by destruct Hxy; apply H0.
Qed.

Lemma tryEntry_is_Some path sub segments :
  (∀ c, sub = Subtree c → ∀ segments',
     is_Some (matchPathToEndpoint c segments') ↔
     ∃ e, e ∈ c ∧ EntryMatches e segments') →
  is_Some (tryEntry path sub segments) ↔ EntryMatches (path, sub) segments.
Proof.
  intros IH. unfold tryEntry.
  destruct (Nat.ltb_spec (length segments) (length path)) as [Hlt|Hle].
  { split; [by intros [? [=]]|]. inversion 1; lia. }
  destruct (Nat.ltb_spec (length path) (length segments)) as [Hlt|Hge];
    cbn [andb].
  - (* the input is longer than the template *)
    destruct sub as [f|c]; cbn [isFunction].
    { split; [by intros [? [=]]|]. inversion 1; lia. }
    pose proof (checkPathSegments_is_Some path segments ∅ Hle) as Hseg.
    destruct (checkPathSegments path segments ∅) as [vars|].
    + destruct (Nat.eqb_spec (length path) (length segments)) as [Heq|_]; [lia|].
      specialize (IH c eq_refl (drop (length path) segments)).
      destruct (matchPathToEndpoint c (drop (length path) segments)) as [fn|].
      * split; [intros _|by eauto].
        destruct (proj1 IH) as (e & He & Hm); [by eauto|].
        eapply match_deeper; eauto. apply Hseg; eauto.
      * split; [by intros [? [=]]|].
        inversion 1; subst; try lia.
        assert (is_Some (@None (Matched T))) as [? [=]].
        apply IH. eauto.
    + split; [by intros [? [=]]|].
      inversion 1; subst; try lia.
      assert (is_Some (@None (gmap string string))) as [? [=]].
      by apply Hseg.
  - (* the input is as long as the template *)
    assert (length segments = length path) as Heq by lia.
    pose proof (checkPathSegments_is_Some path segments ∅ Hle) as Hseg.
    destruct (checkPathSegments path segments ∅) as [vars|].
    + destruct (Nat.eqb_spec (length path) (length segments)) as [_|Hne]; [|lia].
      assert (literalsAgree path segments) as Hlit by (apply Hseg; eauto).
      destruct sub as [f|c].
      * split; [intros _; by constructor|by eauto].
      * destruct (getIndexHandler c) as [indexHandler|] eqn:Hidx.
        -- split; [intros _|by eauto]. apply match_index; eauto.
        -- split; [by intros [? [=]]|].
           inversion 1; subst; try lia.
           by match goal with H : is_Some (getIndexHandler _) |- _ =>
                rewrite Hidx in H; destruct H as [? [=]] end.
    + split; [by intros [? [=]]|].
      assert (¬ literalsAgree path segments) as Hlit.
      { intros H. apply Hseg in H. by destruct H as [? [=]]. }
      inversion 1; subst; by destruct Hlit.
Qed.

(** A tree matches exactly when one of its entries does. *)
Lemma matchPathToEndpoint_is_Some h segments :
  is_Some (matchPathToEndpoint h segments) ↔
  ∃ e, e ∈ h ∧ EntryMatches e segments.
Proof.
  revert segments.
  cut (∀ sub c, sub = Subtree c → ∀ segments,
         is_Some (matchPathToEndpoint c segments) ↔
         ∃ e, e ∈ c ∧ EntryMatches e segments).
  { intros H. by apply (H (Subtree h)). }
  clear h. intros sub.
  induction sub as [f|h IH] using Subrouter_nested_ind; [done|].
  intros c [= <-] segments.
  induction h as [|[path sub] h IHh].
  - rewrite matchPathToEndpoint_nil. split; [by intros [? [=]]|].
    intros (e & He & _). by apply elem_of_nil in He.
  - apply Forall_cons in IH as [Hsub Hrest].
    rewrite matchPathToEndpoint_cons.
    pose proof (tryEntry_is_Some path sub segments Hsub) as Hentry.
    specialize (IHh Hrest).
    destruct (tryEntry path sub segments) as [m|].
    + split; [intros _|by eauto].
      exists (path, sub). split; [by left|]. apply Hentry. eauto.
    + rewrite IHh. split.
      * intros (e & He & Hm). exists e. split; [by right|done].
      * intros (e & He & Hm). apply elem_of_cons in He as [->|He].
        -- apply Hentry in Hm. by destruct Hm as [? [=]].
        -- eauto.
Qed.

Lemma matchPathToEndpoint_singleton e segments :
  matchPathToEndpoint [e] segments = tryEntry e.1 e.2 segments.
Proof.
  destruct e as [path sub]. rewrite matchPathToEndpoint_cons. cbn [fst snd].
  by destruct (tryEntry path sub segments).
Qed.

Lemma EntryMatches_singleton e segments :
  EntryMatches e segments ↔ is_Some (matchPathToEndpoint [e] segments).
Proof.
  rewrite matchPathToEndpoint_is_Some. split.
  - intros H. exists e. split; [by left|done].
  - intros (e' & He' & H). by apply list_elem_of_singleton in He' as ->.
Qed.

(** Entries that do not match are passed over: the result is that of the
    earliest entry that matches, whatever is declared after it. *)
Lemma matchPathToEndpoint_earliest pre e post segments :
  (∀ e', e' ∈ pre → ¬ EntryMatches e' segments) →
  EntryMatches e segments →
  is_Some (matchPathToEndpoint [e] segments) ∧
  matchPathToEndpoint (pre ++ e :: post) segments =
  matchPathToEndpoint [e] segments.
Proof.
  intros Hpre He.
  assert (matchPathToEndpoint pre segments = None) as Hnone.
  { destruct (matchPathToEndpoint pre segments) as [m|] eqn:Hm; [|done].
    assert (is_Some (matchPathToEndpoint pre segments)) as Hs by (rewrite Hm; eauto).
    apply matchPathToEndpoint_is_Some in Hs as (e' & Hin & He').
    by destruct (Hpre e' Hin). }
  apply EntryMatches_singleton in He as [m Hm]. split; [by eauto|].
  rewrite matchPathToEndpoint_app, Hnone. destruct e as [path sub].
  rewrite matchPathToEndpoint_singleton in Hm. cbn [fst snd] in Hm.
  rewrite matchPathToEndpoint_cons, matchPathToEndpoint_singleton.
  cbn [fst snd]. by rewrite Hm.
Qed.

(** A variable segment met by a different input segment binds it; met by
    an input segment that spells the template segment itself, it is taken
    as a direct match and nothing is bound. *)
Lemma checkPathSegments_variable x y path segments (vars : gmap string string) :
  startsWithColon x = true →
  x ≠ y →
  checkPathSegments (x :: path) (y :: segments) vars =
  checkPathSegments path segments (<[slice1 x := y]> vars).
Proof.
  intros Hx Hxy. cbn [checkPathSegments].
  rewrite bool_decide_eq_false_2 by done. by rewrite Hx.
Qed.

Lemma checkPathSegments_same x path segments (vars : gmap string string) :
  checkPathSegments (x :: path) (x :: segments) vars =
  checkPathSegments path segments vars.
Proof. cbn [checkPathSegments]. by rewrite bool_decide_eq_true_2. Qed.

(** C1 (as amended): a compiled tree matches an input exactly when one of
    its entries does, that is, when the entry's literal segments agree with
    the input at every literal position and either the entry is a terminal
    of the input's length, or a subtree of the input's length whose index
    lookup finds a terminal, or a subtree shorter than the input one of
    whose entries matches the remaining segments.  The result is that of
    the earliest matching entry in declaration order.  The tree
    [{"/user/:id": {"/msg/:mid": handlerA}}] matches [user/7/msg/9] with
    [handlerA] and the variables [id = "7"], [mid = "9"]. *)
Theorem matchPathToEndpoint_characterised :
  (∀ h segments,
     is_Some (matchPathToEndpoint h segments) ↔
     ∃ e, e ∈ h ∧ EntryMatches e segments) ∧
  (∀ pre e post segments,
     (∀ e', e' ∈ pre → ¬ EntryMatches e' segments) →
     EntryMatches e segments →
     is_Some (matchPathToEndpoint [e] segments) ∧
     matchPathToEndpoint (pre ++ e :: post) segments =
     matchPathToEndpoint [e] segments) ∧
  (∀ handlerA : T,
     matchPathToEndpoint
       (compileRouteTree
          [("/user/:id", RawSubroutes [("/msg/:mid", RawTerminal handlerA)])])
       ["user"; "7"; "msg"; "9"]
     = Some (mkMatched {["id" := "7"; "mid" := "9"]} handlerA)).
Proof.
  split; [exact matchPathToEndpoint_is_Some|].
  split; [exact matchPathToEndpoint_earliest|].
  intros handlerA. vm_compute. reflexivity.
Qed.

(** C7: when the entry reached by the loop is shorter than the input and
    its subtree matches the remaining segments, the result carries the
    subtree's terminal, and its variables are this level's bindings
    overlaid with the subtree's: a name bound at both levels has the inner
    value. *)
Theorem matchPathToEndpoint_inner_bindings_win
    pre path c post segments (vars : gmap string string) fn :
  matchPathToEndpoint pre segments = None →
  (length path < length segments)%nat →
  checkPathSegments path segments ∅ = Some vars →
  matchPathToEndpoint c (drop (length path) segments) = Some fn →
  ∃ m, matchPathToEndpoint (pre ++ (path, Subtree c) :: post) segments = Some m ∧
       getValue m = getValue fn ∧
       ∀ name, variables m !! name =
               match variables fn !! name with
               | Some inner => Some inner
               | None => vars !! name
               end.
Proof.
  intros Hpre Hlen Hvars Hfn.
  rewrite matchPathToEndpoint_app, Hpre, matchPathToEndpoint_cons.
  unfold tryEntry. cbn [isFunction]. rewrite andb_false_r.
  destruct (Nat.ltb_spec (length segments) (length path)); [lia|].
  destruct (Nat.eqb_spec (length path) (length segments)); [lia|].
  rewrite Hvars, Hfn. eexists. split; [reflexivity|]. split; [reflexivity|].
  intros name. cbn [variables]. unfold spread. rewrite lookup_union.
  destruct (variables fn !! name), (vars !! name); reflexivity.
Qed.

(** C8, at the input where it fails: the route ["/:id"] requested as
    ["/:id"] matches, and [id] is left unbound. *)
Theorem variable_segment_spelt_in_input_unbound (handlerA : T) :
  matchPathToEndpoint
    (compileRouteTree [("/:id", RawTerminal handlerA)])
    (splitSlash (removeWrappingSlashes "/:id"))
  = Some (mkMatched ∅ handlerA).
Proof. vm_compute. reflexivity. Qed.

End RoutingFacts.

(** C1, the specification's wording against the code: under ["/a"] a
    subtree whose only entry is an empty index subtree; the input [a] has
    the template's length and the subtree has an empty-key entry, yet
    nothing is matched.  Likewise a subtree with an index terminal does not
    make [a/b] match. *)
Lemma matchPathToEndpoint_index_entry_not_enough :
  let h1 : CompiledRoutingEngine nat :=
    compileRouteTree [("/a", RawSubroutes [("/", RawSubroutes [])])] in
  let h2 : CompiledRoutingEngine nat :=
    compileRouteTree [("/a", RawSubroutes [("/", RawTerminal 0%nat)])] in
  ((∃ e, e ∈ h1 ∧ specEntryMatches e ["a"]) ∧
   matchPathToEndpoint h1 ["a"] = None) ∧
  ((∃ e, e ∈ h2 ∧ specEntryMatches e ["a"; "b"]) ∧
   matchPathToEndpoint h2 ["a"; "b"] = None).
Proof.
  assert (Hlit : ∀ rest, literalsAgree ["a"] ("a" :: rest)).
  { intros rest [|i] x Hx _; [exact Hx|by destruct i]. }
  split; (split; [|vm_compute; reflexivity]).
  - eexists. split; [by left|]. split; [apply Hlit|].
    cbn. split; [lia|]. right. eexists. by left.
  - eexists. split; [by left|]. split; [apply Hlit|].
    cbn. split; [lia|]. right. eexists. by left.
Qed.

Lemma matchPathToEndpoint_characterised_witness :
  matchPathToEndpoint
    [(["a"], Terminal 1%nat); (["b"], Terminal 2%nat); ([":x"], Terminal 3%nat)]
    ["b"]
  = matchPathToEndpoint [(["b"], Terminal 2%nat)] ["b"].
Proof.
  apply (proj1 (proj2 matchPathToEndpoint_characterised)
           [(["a"], Terminal 1%nat)] (["b"], Terminal 2%nat)
           [([":x"], Terminal 3%nat)] ["b"]).
  - intros e' He' Hm. apply list_elem_of_singleton in He' as ->.
    apply EntryMatches_singleton in Hm. vm_compute in Hm.
    by destruct Hm as [? [=]].
  - apply EntryMatches_singleton. vm_compute. eauto.
Defined.

Lemma matchPathToEndpoint_inner_bindings_win_witness :
  ∃ m, matchPathToEndpoint
         [([":id"], Subtree [([":id"], Terminal 5%nat)])] ["1"; "2"] = Some m ∧
       getValue m = 5%nat ∧
       variables m !! "id" = Some "2".
Proof.
  destruct (matchPathToEndpoint_inner_bindings_win (T:=nat)
              [] [":id"] [([":id"], Terminal 5%nat)] [] ["1"; "2"]
              {["id" := "1"]} (mkMatched {["id" := "2"]} 5%nat))
    as (m & Hm & Hv & Hvars).
  - reflexivity.
  - simpl. lia.
  - vm_compute. reflexivity.
  - vm_compute. reflexivity.
  - exists m. split; [exact Hm|]. split; [exact Hv|].
    rewrite Hvars. vm_compute. reflexivity.
Defined.


(** ** Procedures *)

Section ProcedureFacts.

Context {Request : Type}.
Implicit Types (σ : gmap positive (list (Middleware Request))).
Implicit Types (p : GenerateProcedure) (s mw : Middleware Request).
Implicit Types (steps : list (Middleware Request)).

Lemma generateProcedure_inherits mw l σ steps :
  σ !! l = Some steps →
  generateProcedure mw (Some l) σ =
  (mkProcedure (fresh (dom σ)), <[fresh (dom σ) := steps ++ [mw]]> σ).
Proof.
  intros Hl. unfold generateProcedure, mbind, Heap_bind, mret, Heap_ret,
    readArray, newArray, push.
  rewrite Hl. cbn [default]. by rewrite alter_insert_eq.
Qed.

Lemma generateProcedure_initial mw σ :
  generateProcedure mw None σ =
  (mkProcedure (fresh (dom σ)), <[fresh (dom σ) := [mw]]> σ).
Proof.
  unfold generateProcedure, mbind, Heap_bind, mret, Heap_ret, newArray, push.
  by rewrite alter_insert_eq.
Qed.

Lemma fresh_lookup_None σ : σ !! fresh (dom σ) = None.
Proof. apply not_elem_of_dom, is_fresh. Qed.

(** [extend] allocates the copy and the child's array at two addresses the
    store did not have, and writes nowhere else. *)
Lemma extend_store p s σ steps :
  σ !! previous p = Some steps →
  ∃ copy child,
    σ !! copy = None ∧ σ !! child = None ∧ copy ≠ child ∧
    extend p s σ =
    (mkProcedure child, <[child := steps ++ [s]]> (<[copy := steps]> σ)).
Proof.
  intros Hp. unfold extend, mbind, Heap_bind, readArray, newArray.
  rewrite Hp. cbn [default].
  set (copy := fresh (dom σ)).
  assert (σ !! copy = None) as Hcopy by apply fresh_lookup_None.
  pose proof (fresh_lookup_None (<[copy := steps]> σ)) as Hchild.
  set (child := fresh (dom (<[copy := steps]> σ))) in *.
  assert (copy ≠ child) as Hne.
  { intros Heq. rewrite <- Heq, lookup_insert_eq in Hchild. done. }
  exists copy, child. split; [done|]. split.
  { by rewrite lookup_insert_ne in Hchild. }
  split; [done|].
  by rewrite (generateProcedure_inherits s copy _ steps)
    by apply lookup_insert_eq.
Qed.

Lemma extend_appends p s σ steps :
  σ !! previous p = Some steps →
  (extend p s σ).2 !! previous (extend p s σ).1 = Some (steps ++ [s]) ∧
  ∀ l, is_Some (σ !! l) → (extend p s σ).2 !! l = σ !! l.
Proof.
  intros Hp. destruct (extend_store p s σ steps Hp)
    as (copy & child & Hcopy & Hchild & Hne & ->). cbn [fst snd previous].
  split; [apply lookup_insert_eq|].
  intros l [xs Hl].
  rewrite !lookup_insert_ne; [done| |]; intros <-; congruence.
Qed.

(** C6: [extend] returns a procedure whose steps are the receiver's steps
    followed by the new one; the receiver's steps, and every array the
    store already held, are unchanged; two children made from one base
    each have the base's steps and their own, and neither has the other's. *)
Theorem extend_appends_and_leaves_receiver σ p steps s :
  σ !! previous p = Some steps →
  let '(child, σ') := extend p s σ in
  σ' !! previous child = Some (steps ++ [s]) ∧
  σ' !! previous p = Some steps ∧
  (∀ l, is_Some (σ !! l) → σ' !! l = σ !! l) ∧
  ∀ s2, let '(child2, σ'') := extend p s2 σ' in
        σ'' !! previous child = Some (steps ++ [s]) ∧
        σ'' !! previous child2 = Some (steps ++ [s2]) ∧
        σ'' !! previous p = Some steps.
Proof.
  intros Hp. pose proof (extend_appends p s σ steps Hp) as [Hchild Hframe].
  destruct (extend p s σ) as [child σ'] eqn:He. cbn [fst snd] in *.
  assert (σ' !! previous p = Some steps) as Hp'.
  { rewrite Hframe; [done|by eauto]. }
  split; [done|]. split; [done|]. split; [done|].
  intros s2. pose proof (extend_appends p s2 σ' steps Hp') as [Hchild2 Hframe2].
  destruct (extend p s2 σ') as [child2 σ''] eqn:He2. cbn [fst snd] in *.
  split; [|split; [done|]].
  - rewrite Hframe2; [done|by eauto].
  - rewrite Hframe2; [done|by eauto].
Qed.

End ProcedureFacts.

Lemma extend_appends_and_leaves_receiver_witness :
  let base : Middleware unit := baseMiddleware in
  let s1 : Middleware unit := resolvesWith [("a", VNum 1)] in
  let s2 : Middleware unit := resolvesWith [("b", VNum 2)] in
  let σ : gmap positive (list (Middleware unit)) := {[ 1%positive := [base] ]} in
  let p := mkProcedure 1%positive in
  let '(child, σ') := extend p s1 σ in
  let '(child2, σ'') := extend p s2 σ' in
  σ'' !! previous child = Some [base; s1] ∧
  σ'' !! previous child2 = Some [base; s2] ∧
  σ'' !! previous p = Some [base].
Proof.
  intros base s1 s2 σ p.
  pose proof (extend_appends_and_leaves_receiver σ p [base] s1) as H.
  destruct (extend p s1 σ) as [child σ'].
  destruct (H ltac:(reflexivity)) as (_ & _ & _ & H2).
  exact (H2 s2).
Defined.

(** ** Running a finalised procedure *)

Section ChainFacts.

Context {Request : Type}.
Implicit Types (σ : gmap positive (list (Middleware Request))).
Implicit Types (p : GenerateProcedure) (s mw : Middleware Request).
Implicit Types (steps pre post : list (Middleware Request)).
Implicit Types (stack tail : list (ExpressMiddleware Request)).
Implicit Types (sink : Thrown → Request → Response → Response).
Implicit Types (x : Exchange) (res : Response) (req : Request).

Lemma use_stack p (handler : EndpointHandler Request) σ steps :
  σ !! previous p = Some steps →
  use p handler σ = (imap stepWrapper steps ++ [handlerWrapper handler], σ).
Proof.
  intros Hp. unfold use, mbind, Heap_bind, mret, Heap_ret, readArray.
  by rewrite Hp.
Qed.

Lemma dispatch_cons (mw : ExpressMiddleware Request) stack sink req x :
  dispatch (mw :: stack) sink req None x = mw req x (dispatch stack sink req).
Proof. reflexivity. Qed.

(** Steps that resolve are run in order and control reaches what follows
    them on the stack. *)
Lemma dispatch_steps_succeed steps : ∀ (n : nat) tail sink req x res1,
  StepsSucceed req steps (res x) res1 →
  dispatch (imap (λ i, stepWrapper (n + i)) steps ++ tail) sink req None x =
  dispatch tail sink req None
    {| res := res1; trace := trace x ++ (StepRun <$> seq n (length steps)) |}.
Proof.
  induction steps as [|mw steps IH]; intros n tail sink req x res1 Hrun.
  - inversion Hrun; subst. cbn [imap app length seq fmap list_fmap].
    rewrite app_nil_r. by destruct x.
  - inversion Hrun as [|? ? ? res' result ? Hmw Hrest]; subst.
    rewrite imap_cons. cbn [app]. rewrite dispatch_cons. unfold stepWrapper at 1.
    cbn [record res]. rewrite Hmw.
    rewrite (imap_ext _ (λ i, stepWrapper (S n + i)));
      [|intros i ? _; cbn; f_equal; lia].
    rewrite (IH (S n)) with (res1 := res1) by done.
    cbn [onRes record res trace length seq fmap list_fmap].
    rewrite Nat.add_0_r, <- app_assoc. reflexivity.
Qed.

(** [next] called with a value Express takes for an error enters the error
    handler whatever is left on the stack; called with a value it takes
    for no error it goes on as [next()] does. *)
Lemma dispatch_error stack sink req argument err x :
  nextAction (Some argument) = Fail err →
  dispatch stack sink req (Some argument) x =
  onRes (sink err req) (record (SinkRun err) x).
Proof. intros Hnext. destruct stack; cbn [dispatch]; by rewrite Hnext. Qed.

Lemma dispatch_no_error stack sink req argument x :
  nextAction (Some argument) = Proceed →
  dispatch stack sink req (Some argument) x = dispatch stack sink req None x.
Proof. intros Hnext. destruct stack; cbn [dispatch]; by rewrite Hnext. Qed.

(** A step that rejects with an error hands it to the error handler, and
    nothing that follows it on the stack is entered. *)
Lemma dispatch_step_fails mw (n : nat) stack sink req x res2 err :
  mw req (res x) = (res2, inl err) →
  nextAction (Some err) = Fail err →
  dispatch (stepWrapper n mw :: stack) sink req None x =
  {| res := sink err req res2; trace := trace x ++ [StepRun n; SinkRun err] |}.
Proof.
  intros Hmw Hnext. rewrite dispatch_cons. unfold stepWrapper.
  cbn [record res]. rewrite Hmw, (dispatch_error _ _ _ _ err) by done.
  unfold onRes, record; cbn [res trace]. by rewrite <- app_assoc.
Qed.

(** A step that rejects with a value Express takes for no error is passed
    over: the stack goes on after it, without the step's result. *)
Lemma dispatch_step_passed_over mw (n : nat) stack sink req x res2 err :
  mw req (res x) = (res2, inl err) →
  nextAction (Some err) = Proceed →
  dispatch (stepWrapper n mw :: stack) sink req None x =
  dispatch stack sink req None {| res := res2; trace := trace x ++ [StepRun n] |}.
Proof.
  intros Hmw Hnext. rewrite dispatch_cons. unfold stepWrapper.
  cbn [record res]. rewrite Hmw, dispatch_no_error by done.
  reflexivity.
Qed.

Lemma dispatch_steps_fail pre mw post (n : nat) tail sink req x res1 res2 err :
  StepsSucceed req pre (res x) res1 →
  mw req res1 = (res2, inl err) →
  nextAction (Some err) = Fail err →
  dispatch (imap (λ i, stepWrapper (n + i)) (pre ++ mw :: post) ++ tail)
    sink req None x =
  {| res := sink err req res2;
     trace := trace x ++ (StepRun <$> seq n (S (length pre))) ++ [SinkRun err] |}.
Proof.
  intros Hpre Hmw Hnext. rewrite imap_app, <- app_assoc.
  rewrite (dispatch_steps_succeed pre n _ sink req x res1 Hpre).
  rewrite imap_cons. cbn [app].
  rewrite (dispatch_step_fails mw _ _ sink req _ res2 err) by done.
  cbn [trace]. f_equal. rewrite seq_S, fmap_app, <- !app_assoc.
  cbn. by rewrite Nat.add_0_r.
Qed.

(** The wrapped handler, last on the stack: its result is sent with
    [res.json]; its rejection, or what [res.json] throws, goes to [next]. *)
Lemma dispatch_handler (handler : EndpointHandler Request) sink req x :
  dispatch [handlerWrapper handler] sink req None x =
  let ran := trace x ++ [HandlerRun (locals (res x))] in
  let thrown err res' :=
    match nextAction (Some err) with
    | Fail e => {| res := sink e req res'; trace := ran ++ [SinkRun e] |}
    | _ => {| res := res'; trace := ran |}
    end in
  match handler req (res x) with
  | (res', inr result) =>
      match json (VObj [("success", VBool true); ("result", result)]) res' with
      | inr sent => {| res := sent; trace := ran |}
      | inl msg => thrown (OtherError msg) res'
      end
  | (res', inl err) => thrown err res'
  end.
Proof.
  rewrite dispatch_cons. unfold handlerWrapper. cbn [record res].
  destruct (handler req (res x)) as [res' [err|result]].
  - cbn [dispatch]. by destruct (nextAction (Some err)).
  - destruct (json _ res') as [msg|sent]; [|done]. reflexivity.
Qed.

(** Whatever the handler does, it is entered with the context of the
    response it is handed. *)
Lemma dispatch_handler_entered (handler : EndpointHandler Request) sink req x :
  ∃ rest,
    trace (dispatch [handlerWrapper handler] sink req None x) =
    trace x ++ HandlerRun (locals (res x)) :: rest.
Proof.
  rewrite dispatch_handler. cbn zeta.
  destruct (handler req (res x)) as [res' [err|result]].
  - destruct (nextAction (Some err)); cbn [trace]; rewrite <- ?app_assoc;
      eexists; reflexivity.
  - destruct (json _ res') as [msg|sent]; cbn [trace nextAction];
      rewrite <- ?app_assoc; eexists; reflexivity.
Qed.

Lemma sinkCalls_steps (l : list nat) : sinkCalls (StepRun <$> l) = [].
Proof. induction l; [done|]. by cbn. Qed.

Lemma assignLocals_lookup result res key :
  locals (assignLocals result res) !! key =
  match lastBinding key result with
  | Some v => Some v
  | None => locals res !! key
  end.
Proof.
  unfold lastBinding, assignLocals. cbn [locals].
  induction result as [|[k v] result IH] using rev_ind; [done|].
  rewrite foldl_app, reverse_snoc. cbn [foldl objGet fst snd].
  case_bool_decide as Hk.
  - subst. apply lookup_insert_eq.
  - by rewrite lookup_insert_ne.
Qed.

(** In a finalised chain, when the steps before some step resolve and that
    step rejects with a value Express takes for an error, the steps up to
    it are the only ones run, the handler is not run, and the error handler
    is entered once, with that step's error.  When every step resolves,
    the handler is entered with the context the steps have left. *)
Lemma chain_stops_at_first_error
    σ p (handler : EndpointHandler Request) sink req res0 steps :
  σ !! previous p = Some steps →
  let x := handleRequest (use p handler σ).1 sink req res0 in
  (∀ pre s post res1 res2 err,
     steps = pre ++ s :: post →
     StepsSucceed req pre res0 res1 →
     s req res1 = (res2, inl err) →
     nextAction (Some err) = Fail err →
     trace x = (StepRun <$> seq 0 (S (length pre))) ++ [SinkRun err] ∧
     res x = sink err req res2 ∧
     (∀ j, (length pre < j)%nat → StepRun j ∉ trace x) ∧
     (∀ ctx, HandlerRun ctx ∉ trace x) ∧
     sinkCalls (trace x) = [err]) ∧
  (∀ res1,
     StepsSucceed req steps res0 res1 →
     ∃ rest,
       trace x = (StepRun <$> seq 0 (length steps)) ++
                 HandlerRun (locals res1) :: rest).
Proof.
  intros Hp x. subst x. rewrite (use_stack p handler σ steps Hp).
  cbn [fst]. unfold handleRequest.
  change (imap stepWrapper steps)
    with (imap (λ i, stepWrapper (0 + i)) steps).
  split.
  - intros pre s post res1 res2 err -> Hpre Hs Hnext.
    rewrite (dispatch_steps_fail pre s post 0 _ sink req _ res1 res2 err)
      by done.
    cbn [trace res app].
    split; [done|]. split; [done|]. split; [|split].
    + intros j Hj Hin. apply elem_of_app in Hin as [Hin|Hin].
      * apply list_elem_of_fmap in Hin as (i & [= ->] & Hi).
        apply elem_of_seq in Hi. lia.
      * by apply list_elem_of_singleton in Hin.
    + intros ctx Hin. apply elem_of_app in Hin as [Hin|Hin].
      * by apply list_elem_of_fmap in Hin as (i & [=] & _).
      * by apply list_elem_of_singleton in Hin.
    + unfold sinkCalls. rewrite omap_app. fold (sinkCalls (StepRun <$> seq 0 (S (length pre)))).
      by rewrite sinkCalls_steps.
  - intros res1 Hsteps.
    rewrite (dispatch_steps_succeed steps 0 _ sink req _ res1) by done.
    apply dispatch_handler_entered.
Qed.

(** C9: when a step resolves, every entry of its result is written into
    the context over whatever was there under that key, the value being
    taken as it is.  Two steps resolving with values under the same key
    leave the second value for the handler, whatever the two values are
    (so [{a: {x: 1}}] then [{a: {y: 2}}] leaves [{a: {y: 2}}]); with
    [{a: 1}] then [{a: 2}] the handler runs with [{a: 2}]. *)
Theorem context_merge_last_writer_wins :
  (∀ index mw req x next res' result,
     mw req (res x) = (res', inr result) →
     ∃ x', stepWrapper index mw req x next = next None x' ∧
           statusCode (res x') = statusCode res' ∧
           body (res x') = body res' ∧
           ∀ key, locals (res x') !! key =
                  match lastBinding key result with
                  | Some v => Some v
                  | None => locals res' !! key
                  end) ∧
  (∀ (handler : EndpointHandler Request) sink req (first second : Value),
     let chain :=
       base ← baseProcedure;
       p1 ← extend base (resolvesWith [("a", first)]);
       p2 ← extend p1 (resolvesWith [("a", second)]);
       use p2 handler in
     ∃ rest,
       trace (handleRequest (chain ∅).1 sink req freshResponse) =
       [StepRun 0; StepRun 1; StepRun 2; HandlerRun {["a" := second]}] ++ rest) ∧
  (∀ (handler : EndpointHandler Request) sink req,
     let chain :=
       base ← baseProcedure;
       p1 ← extend base (resolvesWith [("a", VNum 1)]);
       p2 ← extend p1 (resolvesWith [("a", VNum 2)]);
       use p2 handler in
     ∃ rest,
       trace (handleRequest (chain ∅).1 sink req freshResponse) =
       [StepRun 0; StepRun 1; StepRun 2; HandlerRun {["a" := VNum 2]}] ++ rest).
Proof.
  assert (Htwice : ∀ (handler : EndpointHandler Request) sink req
                     (first second : Value),
            ∃ rest,
              trace (handleRequest
                       ((base ← baseProcedure;
                         p1 ← extend base (resolvesWith [("a", first)]);
                         p2 ← extend p1 (resolvesWith [("a", second)]);
                         use p2 handler) ∅).1 sink req freshResponse) =
              [StepRun 0; StepRun 1; StepRun 2; HandlerRun {["a" := second]}]
                ++ rest).
  { intros handler sink req first second.
    set (x := {| res := assignLocals [("a", second)]
                          (assignLocals [("a", first)]
                             (assignLocals [] freshResponse));
                 trace := [StepRun 0; StepRun 1; StepRun 2] |}).
    destruct (dispatch_handler_entered handler sink req x) as [rest Hrest].
    exists rest.
    etransitivity; [|etransitivity; [exact Hrest|]];
      subst x; vm_compute; reflexivity. }
  split; [|split].
  - intros index mw req x next res' result Hmw.
    unfold stepWrapper. cbn [record res]. rewrite Hmw.
    eexists. split; [reflexivity|]. cbn [onRes res].
    split; [done|]. split; [done|]. apply assignLocals_lookup.
  - intros handler sink req first second chain. apply Htwice.
  - intros handler sink req chain. apply Htwice.
Qed.

End ChainFacts.

(** C2, at an input where the code departs from it: a chain whose third
    step rejects with [undefined].  [.catch(next)] hands [undefined] to
    [next], which is the call [next()]: the step after it and the handler
    run, the handler with the context of the steps that resolved, the
    result of the handler is sent, and the error handler is never entered.
    The same chain with a third step that rejects with an [ERPCError] stops
    at that step. *)
Theorem rejection_with_undefined_passes_for_success :
  let user : Middleware unit := resolvesWith [("user", VStr "ada")] in
  let rejecting err : Middleware unit := λ _ res, (res, inl err) in
  let admin : Middleware unit := resolvesWith [("isAdmin", VBool true)] in
  let handler : EndpointHandler unit := λ _ res, (res, inr (VStr "secret")) in
  let chain err :=
    base ← baseProcedure;
    p1 ← extend base user;
    p2 ← extend p1 (rejecting err);
    p3 ← extend p2 admin;
    use p3 handler in
  let run err :=
    handleRequest (chain err ∅).1
      (serverErrorHandler (mkServerOptions None None None)) tt freshResponse in
  let forbidden := ERPCError (mkOpts FORBIDDEN "Unauthenticated" None) in
  trace (run (NotAnError VUndefined)) =
    [StepRun 0; StepRun 1; StepRun 2; StepRun 3;
     HandlerRun {["user" := VStr "ada"; "isAdmin" := VBool true]}] ∧
  sinkCalls (trace (run (NotAnError VUndefined))) = [] ∧
  statusCode (res (run (NotAnError VUndefined))) = 200 ∧
  body (res (run (NotAnError VUndefined))) =
    Some (VObj [("success", VBool true); ("result", VStr "secret")]) ∧
  trace (run forbidden) = [StepRun 0; StepRun 1; StepRun 2; SinkRun forbidden] ∧
  statusCode (res (run forbidden)) = 403.
Proof. vm_compute. repeat split. Qed.

Lemma context_merge_last_writer_wins_witness :
  let s : Middleware unit := resolvesWith [("a", VNum 1); ("a", VNum 2)] in
  let x := {| res := assignLocals [("a", VNum 0); ("b", VNum 7)] freshResponse;
              trace := [] |} in
  ∃ x', stepWrapper 0 s tt x (λ _ x', x') = x' ∧
        locals (res x') !! "a" = Some (VNum 2) ∧
        locals (res x') !! "b" = Some (VNum 7).
Proof.
  intros s x.
  destruct (proj1 (context_merge_last_writer_wins (Request:=unit))
              0%nat s tt x (λ _ x', x') (res x) [("a", VNum 1); ("a", VNum 2)])
    as (x' & Hx' & _ & _ & Hlocals); [reflexivity|].
  exists x'. split; [exact Hx'|]. rewrite !Hlocals. split; reflexivity.
Defined.

(** ** The default error handler *)

Section ErrorHandlerFacts.

Context {Request : Type}.
Implicit Types (opts : ServerConstructorOptions Request).
Implicit Types (res : Response) (req : Request) (err : Thrown).


End ErrorHandlerFacts.



(** ** Connections *)

Section ListenerFacts.

Variable JSON_parse : string → option Value.

(** C4: a frame that does not parse as an envelope, or names an event
    with no registered handler, or whose payload the event's schema
    rejects, leaves the connection as it was (no handler invocation, no
    call on the socket, so nothing sent and the socket not closed) and the
    listener resolves.  So does a frame that parses to
    [{eventName: "ping", data: {}}] when no "ping" handler is registered. *)
Theorem rejected_frame_is_dropped :
  (∀ conn stringified,
     frameRejected JSON_parse conn stringified →
     onMessage JSON_parse conn stringified = (conn, Resolved)) ∧
  (∀ conn stringified,
     JSON_parse stringified =
       Some (VObj [("eventName", VStr "ping"); ("data", VObj [])]) →
     socketEventHandlerMap conn !! "ping" = None →
     let '(conn', settled) := onMessage JSON_parse conn stringified in
     invoked conn' = invoked conn ∧ socket conn' = socket conn ∧
     settled = Resolved).
Proof.
  assert (Hdrop : ∀ conn stringified,
            frameRejected JSON_parse conn stringified →
            onMessage JSON_parse conn stringified = (conn, Resolved)); [|split].
  - intros conn stringified Hrej. unfold onMessage, tryDispatch.
    destruct Hrej as [->|[(parsed & -> & ->)|
      (parsed & eventName & data & -> & -> & Hrej)]]; [done..|].
    destruct (socketEventHandlerMap conn !! eventName) as [registered|];
      [|done].
    destruct Hrej as [[=]|[->|(validator & msg & -> & ->)]]; done.
  - exact Hdrop.
  - intros conn stringified Hparse Hping. rewrite Hdrop; [done|].
    right. right. eexists _, "ping", (VObj []).
    split; [exact Hparse|]. split; [reflexivity|]. by left.
Qed.

(** C10 (as amended): the invocation of a registered handler is inside the
    listener's [try] block; when the handler rejects, the error is caught
    and dropped, and the listener resolves.  The connection shows the
    invocation and the calls the handler made on sockets. *)
Theorem handler_failure_is_caught
    conn stringified parsed eventName data registered validator parsedData
    calls err :
  JSON_parse stringified = Some parsed →
  reqValidator parsed = Some (eventName, data) →
  socketEventHandlerMap conn !! eventName = Some registered →
  connValidators conn !! eventName = Some validator →
  validator data = inr parsedData →
  registered parsedData = (calls, Some err) →
  onMessage JSON_parse conn stringified =
  ({| socketEventHandlerMap := socketEventHandlerMap conn;
      connValidators := connValidators conn;
      socket := socket conn ++ calls;
      invoked := invoked conn ++ [(eventName, parsedData)] |},
   Resolved).
Proof.
  intros Hparse Henv Hhandler Hvalidator Hdata Hrun.
  unfold onMessage, tryDispatch.
  by rewrite Hparse, Henv, Hhandler, Hvalidator, Hdata, Hrun.
Qed.

End ListenerFacts.

Lemma stringify_object entries : is_Some (stringify (VObj entries)).
Proof. by eexists. Qed.

(** What the upgrade callback leaves on a socket that the setup handler
    has not closed: the ready text when the handler resolved; when it
    rejected, the close with 4000 plus the status and the reason [{error}]
    if [ws] accepts them, and nothing otherwise. *)
Lemma upgraded_after_success endpoint query conn :
  handler (getValue endpoint) (newConnection (validators (getValue endpoint)))
    (variables endpoint) query = (conn, None) →
  closing conn = false →
  upgraded endpoint query = socketCalls [Send (Text stabilize)] conn.
Proof. intros Hsetup Hopen. unfold upgraded. by rewrite Hsetup, Hopen. Qed.

Lemma upgraded_after_failure endpoint query conn err :
  handler (getValue endpoint) (newConnection (validators (getValue endpoint)))
    (variables endpoint) query = (conn, Some err) →
  closing conn = false →
  let code := 4000 + status (transformERPCError err) in
  let reason := Stringified (VObj [("error", error (transformERPCError err))]) in
  upgraded endpoint query =
  if closeAccepted code reason then socketCalls [Close code reason] conn
  else conn.
Proof. intros Hsetup Hopen. unfold upgraded. by rewrite Hsetup, Hopen. Qed.

(** C5, at an input where the code departs from it: the route ["/gateway"]
    with a setup handler that rejects with a FORBIDDEN error whose message
    is 93 bytes long.  The status is 403 and the close code 4403, which
    [ws] accepts, but the reason [JSON.stringify({ error })] is 136 bytes
    long, more than the 123 a close frame carries: [ws.close] throws
    inside the [catch] callback, nothing handles that, and no close frame
    (so neither the code nor the reason) is sent.  With the message "no"
    the reason is 45 bytes long and the socket is closed with 4403 and that
    reason; a setup handler that resolves has the ready text sent. *)
Theorem setup_failure_with_long_message_leaves_socket_open :
  let long :=
    "You are not allowed to open this gateway: sign in with an administrator account and try again" in
  let forbidden msg := ERPCError (mkOpts FORBIDDEN msg None) in
  let route outcome :=
    [("/gateway", RawTerminal (mkHeirarchyEnd ∅ (λ conn _ _, (conn, outcome))))] in
  let answer outcome := (webSocketHandler None (route outcome) None "/gateway").2 in
  let reason msg :=
    Stringified (VObj [("error", VObj [("type", VStr "FORBIDDEN");
                                       ("message", VStr msg)])]) in
  String.length long = 93%nat ∧
  4000 + status (transformERPCError (forbidden long)) = 4403 ∧
  isValidStatusCode 4403 = true ∧
  String.length <$> wireText (reason long) = Some 136%nat ∧
  closeAccepted 4403 (reason long) = false ∧
  socket <$> answer (Some (forbidden long)) = Some [] ∧
  String.length <$> wireText (reason "no") = Some 45%nat ∧
  socket <$> answer (Some (forbidden "no")) = Some [Close 4403 (reason "no")] ∧
  socket <$> answer None = Some [Send (Text stabilize)].
Proof. vm_compute. repeat split. Qed.

Lemma rejected_frame_is_dropped_witness :
  let JSON_parse : string → option Value := λ _, Some (VStr "ping") in
  let conn := on "ping" (λ _, ([], None)) (newConnection ∅) in
  onMessage JSON_parse conn "ping" = (conn, Resolved).
Proof.
  intros JSON_parse conn.
  apply (proj1 (rejected_frame_is_dropped JSON_parse) conn "ping").
  right. left. exists (VStr "ping"). split; reflexivity.
Defined.

Lemma handler_failure_is_caught_witness :
  let JSON_parse : string → option Value :=
    λ _, Some (VObj [("eventName", VStr "ping"); ("data", VObj [])]) in
  let failing : EventHandler := λ _, ([], Some (OtherError "boom")) in
  let conn := on "ping" failing (newConnection {[ "ping" := inr ]}) in
  (onMessage JSON_parse conn "frame").2 = Resolved.
Proof.
  intros JSON_parse failing conn.
  rewrite (handler_failure_is_caught JSON_parse conn "frame"
             (VObj [("eventName", VStr "ping"); ("data", VObj [])])
             "ping" (VObj []) failing inr (VObj []) [] (OtherError "boom"));
    reflexivity.
Defined.

(** C10, as stated, against the code: a registered "ping" handler that
    rejects; the listener resolves instead of rejecting with the handler's
    error. *)
Lemma handler_failure_does_not_propagate :
  let JSON_parse : string → option Value :=
    λ _, Some (VObj [("eventName", VStr "ping"); ("data", VObj [])]) in
  let failing : EventHandler := λ _, ([], Some (OtherError "boom")) in
  let conn := on "ping" failing (newConnection {[ "ping" := inr ]}) in
  let '(conn', settled) := onMessage JSON_parse conn "frame" in
  invoked conn' = [("ping", VObj [])] ∧
  settled = Resolved ∧
  settled ≠ Rejected (OtherError "boom").
Proof. vm_compute. repeat split. discriminate. Qed.

(* ===================================================================== *)
(** * Further properties *)
(* ===================================================================== *)

(** ** Splitting and stripping *)

Lemma append_empty_l str : EmptyString +:+ str = str.
Proof. reflexivity. Qed.

Lemma append_String c str rest : String c str +:+ rest = String c (str +:+ rest).
Proof. reflexivity. Qed.

Lemma splitOn_nonempty sep str : splitOn sep str ≠ [].
Proof.
  destruct str as [|c rest]; cbn [splitOn]; [done|].
  destruct (Ascii.eqb c sep); [done|]. by destruct (splitOn sep rest).
Qed.

Lemma joinWith_cons sep x segments :
  segments ≠ [] →
  joinWith sep (x :: segments) = x +:+ String sep (joinWith sep segments).
Proof. by destruct segments. Qed.

Lemma joinWith_splitOn sep str : joinWith sep (splitOn sep str) = str.
Proof.
  induction str as [|c rest IH]; cbn [splitOn]; [done|].
  destruct (Ascii.eqb_spec c sep) as [->|Hne].
  - rewrite joinWith_cons by apply splitOn_nonempty. by rewrite IH.
  - pose proof (splitOn_nonempty sep rest) as Hnil.
    destruct (splitOn sep rest) as [|seg segs]; [done|].
    destruct segs as [|seg' segs].
    + cbn in *. by rewrite IH.
    + rewrite joinWith_cons in IH by done. rewrite joinWith_cons by done.
      by rewrite <- IH.
Qed.

Lemma splitOn_no_sep sep str :
  Forall (λ seg, occurs sep seg = false) (splitOn sep str).
Proof.
  induction str as [|c rest IH]; cbn [splitOn]; [by repeat constructor|].
  destruct (Ascii.eqb c sep) eqn:Hc; [by constructor|].
  destruct (splitOn sep rest) as [|seg segs]; [by repeat constructor; cbn; rewrite Hc|].
  apply Forall_cons in IH as [Hseg Hsegs]. constructor; [|done].
  cbn. by rewrite Hc, Hseg.
Qed.


Lemma splitOn_app_sep sep str rest :
  splitOn sep (str +:+ String sep rest) = splitOn sep str ++ splitOn sep rest.
Proof.
  induction str as [|c str IH];
    rewrite ?append_empty_l, ?append_String; cbn [splitOn].
  - by rewrite Ascii.eqb_refl.
  - destruct (Ascii.eqb c sep); [by rewrite IH|].
    rewrite IH. pose proof (splitOn_nonempty sep str).
    by destruct (splitOn sep str).
Qed.


Lemma dropLast_slash str :
  endsWithSlash str = true → dropLast str +:+ "/" = str.
Proof.
  induction str as [|c rest IH]; [done|]. cbn [endsWithSlash dropLast].
  destruct rest as [|c' rest'].
  - intros ->%Ascii.eqb_eq. done.
  - intros H. rewrite append_String. by rewrite IH.
Qed.

Lemma endsWithSlash_app str : endsWithSlash (str +:+ "/") = true.
Proof.
  induction str as [|c rest IH]; [done|].
  rewrite append_String. cbn [endsWithSlash].
  destruct (rest +:+ "/") eqn:Hrest; [by destruct rest|done].
Qed.

Lemma dropLast_app str : dropLast (str +:+ "/") = str.
Proof.
  induction str as [|c rest IH]; [done|].
  rewrite append_String. cbn [dropLast].
  destruct (rest +:+ "/") eqn:Hrest; [by destruct rest|]. by rewrite IH.
Qed.

Lemma removeWrappingSlashes_cases str :
  (startsWith "/" str = true ∧ str = String "/" (removeWrappingSlashes str)) ∨
  (startsWith "/" str = false ∧ endsWithSlash str = true ∧
   str = removeWrappingSlashes str +:+ "/") ∨
  (startsWith "/" str = false ∧ endsWithSlash str = false ∧
   removeWrappingSlashes str = str).
Proof.
  destruct str as [|c rest]; [by right; right|].
  destruct (Ascii.eqb_spec "/" c) as [<-|Hne].
  - left. done.
  - right. unfold removeWrappingSlashes.
    assert (startsWith "/" (String c rest) = false) as Hs.
    { cbn [startsWith]. rewrite andb_true_r. by apply Ascii.eqb_neq. }
    assert ((match c with
             | "/"%char => rest
             | _ => if endsWithSlash (String c rest)
                    then dropLast (String c rest) else String c rest
             end) = if endsWithSlash (String c rest)
                    then dropLast (String c rest) else String c rest) as ->.
    { destruct c as [[] [] [] [] [] [] [] []]; try reflexivity. by destruct Hne. }
    destruct (endsWithSlash (String c rest)) eqn:He.
    + left. by rewrite dropLast_slash.
    + by right.
Qed.

(** X1: [removeWrappingSlashes] takes away exactly one slash, the leading
    one if there is one, else the trailing one if there is one, and
    otherwise returns its argument. *)
Theorem removeWrappingSlashes_one_slash str :
  (startsWith "/" str = true ∧ str = String "/" (removeWrappingSlashes str)) ∨
  (startsWith "/" str = false ∧ endsWithSlash str = true ∧
   str = removeWrappingSlashes str +:+ "/") ∨
  (startsWith "/" str = false ∧ endsWithSlash str = false ∧
   removeWrappingSlashes str = str).
Proof. exact (removeWrappingSlashes_cases str). Qed.

(** X2: with slashes at both ends only the leading one is taken away, so
    the template gets a last, empty segment; a key with a slash at one end
    only compiles to the template of the key without it. *)
Theorem template_of_wrapped_key str :
  splitSlash (removeWrappingSlashes ("/" +:+ str +:+ "/")) =
    splitSlash str ++ [EmptyString] ∧
  splitSlash (removeWrappingSlashes ("/" +:+ str)) = splitSlash str ∧
  (startsWith "/" str = false →
   splitSlash (removeWrappingSlashes (str +:+ "/")) = splitSlash str).
Proof.
  split; [|split].
  - rewrite append_String, append_empty_l. cbn [removeWrappingSlashes].
    unfold splitSlash. by rewrite splitOn_app_sep.
  - done.
  - intros Hs.
    destruct (removeWrappingSlashes_cases (str +:+ "/"))
      as [[H _]|[(_ & _ & H)|(_ & H & _)]].
    + destruct str as [|c rest]; [done|]. rewrite append_String in H.
      cbn [startsWith] in H, Hs. congruence.
    + f_equal. apply (f_equal dropLast) in H. by rewrite !dropLast_app in H.
    + by rewrite endsWithSlash_app in H.
Qed.

Lemma template_of_wrapped_key_witness :
  splitSlash (removeWrappingSlashes "a/b/") = ["a"; "b"].
Proof.
  exact (proj2 (proj2 (template_of_wrapped_key "a/b")) eq_refl).
Defined.

(** ** Compiling a route tree *)

Section CompileFacts.

Context {T : Type}.
Implicit Types (h : list (string * RawRoute T)) (r : RawRoute T).

Lemma compileRouteTree_cons key r h :
  compileRouteTree ((key, r) :: h) =
  (splitSlash (removeWrappingSlashes key), compileRoute r) :: compileRouteTree h.
Proof. reflexivity. Qed.

Lemma compileRoute_subroutes h :
  compileRoute (RawSubroutes h) = Subtree (compileRouteTree h).
Proof. reflexivity. Qed.

Lemma terminals_cons (e : list string * Subrouter T) c :
  terminals (Subtree (e :: c)) = terminals e.2 ++ terminals (Subtree c).
Proof. reflexivity. Qed.

Lemma templates_cons (e : list string * Subrouter T) c :
  templates (Subtree (e :: c)) =
  e.1 :: templates e.2 ++ templates (Subtree c).
Proof. reflexivity. Qed.

Lemma templateSegments_cons (e : list string * Subrouter T) c :
  templateSegments (Subtree (e :: c)) =
  e.1 ++ templateSegments e.2 ++ templateSegments (Subtree c).
Proof. reflexivity. Qed.

Lemma rawTerminals_cons (kv : string * RawRoute T) h :
  rawTerminals (RawSubroutes (kv :: h)) =
  rawTerminals kv.2 ++ rawTerminals (RawSubroutes h).
Proof. reflexivity. Qed.

(** X3: compiling keeps the entries of every level in their order, and
    the terminals of the compiled tree are those of the declared tree, in
    declaration order. *)
Theorem compileRouteTree_keeps_terminals h :
  length (compileRouteTree h) = length h ∧
  terminals (Subtree (compileRouteTree h)) = rawTerminals (RawSubroutes h).
Proof.
  split.
  - induction h as [|[key r] h IH]; [done|].
    rewrite compileRouteTree_cons. cbn [length]. by rewrite IH.
  - rewrite <- compileRoute_subroutes.
    generalize (RawSubroutes h). clear h. intros r.
    induction r as [f|h IH] using RawRoute_nested_ind; [done|].
    rewrite compileRoute_subroutes.
    induction h as [|[key r] h IHh]; [done|].
    apply Forall_cons in IH as [Hr Hh].
    rewrite compileRouteTree_cons, terminals_cons, rawTerminals_cons.
    cbn [fst snd] in *. by rewrite Hr, (IHh Hh).
Qed.

(** X4: every template of a compiled tree, at any depth, has at least one
    segment and no segment contains a slash; joining the segments of an
    entry's template with slashes gives back its key as
    [removeWrappingSlashes] left it. *)
Theorem compileRouteTree_templates h :
  Forall (λ path, path ≠ [] ∧ Forall (λ seg, occurs "/" seg = false) path)
    (templates (Subtree (compileRouteTree h))) ∧
  Forall2 (λ kv e, joinWith "/" e.1 = removeWrappingSlashes kv.1)
    h (compileRouteTree h).
Proof.
  split.
  - rewrite <- compileRoute_subroutes.
    generalize (RawSubroutes h). clear h. intros r.
    induction r as [f|h IH] using RawRoute_nested_ind; [by constructor|].
    rewrite compileRoute_subroutes.
    induction h as [|[key r] h IHh]; [by constructor|].
    apply Forall_cons in IH as [Hr Hh].
    rewrite compileRouteTree_cons, templates_cons. cbn [fst snd] in *.
    constructor.
    + split; [apply splitOn_nonempty|apply splitOn_no_sep].
    + apply Forall_app. split; [exact Hr|exact (IHh Hh)].
  - induction h as [|[key r] h IH]; [by constructor|].
    rewrite compileRouteTree_cons. constructor; [|exact IH].
    apply joinWith_splitOn.
Qed.

End CompileFacts.

(** ** Index handlers and matches *)

Section MatchFacts.

Context {T : Type}.
Implicit Types (h c pre post : CompiledRoutingEngine T) (sub : Subrouter T).
Implicit Types (path segments : list string) (e : list string * Subrouter T).
Implicit Types (m : Matched T).

Lemma getIndexHandler_cons path sub c :
  getIndexHandler ((path, sub) :: c) =
  if isIndexPath path then indexHandlerOf sub else getIndexHandler c.
Proof. reflexivity. Qed.

Lemma indexHandlerOf_subtree c : indexHandlerOf (Subtree c) = getIndexHandler c.
Proof. reflexivity. Qed.

(** X5: [getIndexHandler] follows the first entry whose template starts
    with the empty segment and no other: a terminal there is the result, a
    subtree there is searched in turn (and an index terminal declared after
    it is not considered); a tree without such an entry has no index
    handler. *)
Theorem getIndexHandler_first_index_entry :
  (∀ pre path sub post,
     Forall (λ e, isIndexPath e.1 = false) pre →
     isIndexPath path = true →
     getIndexHandler (pre ++ (path, sub) :: post) =
     match sub with
     | Terminal f => Some f
     | Subtree c' => getIndexHandler c'
     end) ∧
  (∀ c, Forall (λ e, isIndexPath e.1 = false) c → getIndexHandler c = None).
Proof.
  split.
  - intros pre path sub post Hpre Hpath.
    induction pre as [|[p s] pre IH].
    + cbn [app]. rewrite getIndexHandler_cons, Hpath. by destruct sub.
    + apply Forall_cons in Hpre as [Hp Hpre]. cbn [fst] in Hp.
      rewrite <- app_comm_cons, getIndexHandler_cons, Hp. by apply IH.
  - intros c Hc. induction c as [|[p s] c IH]; [done|].
    apply Forall_cons in Hc as [Hp Hc]. cbn [fst] in Hp.
    rewrite getIndexHandler_cons, Hp. by apply IH.
Qed.

Lemma indexHandlerOf_terminal sub f :
  indexHandlerOf sub = Some f → f ∈ terminals sub.
Proof.
  induction sub as [g|c IH] using Subrouter_nested_ind.
  - intros [= ->]. by left.
  - rewrite indexHandlerOf_subtree.
    induction c as [|[p s] c IHc]; [done|].
    apply Forall_cons in IH as [Hs Hc]. cbn [snd] in Hs.
    rewrite getIndexHandler_cons, terminals_cons. cbn [snd].
    intros H. apply elem_of_app. destruct (isIndexPath p).
    + left. by apply Hs.
    + right. by apply IHc.
Qed.

(** What the segment loop binds: a name bound afterwards was bound before
    or is the name of a variable segment of the template, bound to a
    segment of the input. *)
Lemma checkPathSegments_bindings path segments (vars vars' : gmap string string)
    key v :
  checkPathSegments path segments vars = Some vars' →
  vars' !! key = Some v →
  vars !! key = Some v ∨
  (v ∈ segments ∧ ∃ x, x ∈ path ∧ startsWithColon x = true ∧ key = slice1 x).
Proof.
  revert segments vars.
  induction path as [|x path IH]; intros [|y segments] vars;
    cbn [checkPathSegments]; try done.
  - intros [= ->] ?. by left.
  - intros [= ->] ?. by left.
  - intros Hrun Hkey. case_bool_decide as Hxy.
    + destruct (IH _ _ Hrun Hkey) as [?|(Hv & z & Hz & Hcolon & ->)]; [by left|].
      right. split; [by right|]. exists z. split; [by right|done].
    + destruct (startsWithColon x) eqn:Hcolon; [|done].
      destruct (IH _ _ Hrun Hkey) as [Hold|(Hv & z & Hz & Hzc & ->)].
      * destruct (decide (slice1 x = key)) as [<-|Hne].
        -- rewrite lookup_insert_eq in Hold. injection Hold as ->.
           right. split; [by left|]. exists x. split; [by left|done].
        -- rewrite lookup_insert_ne in Hold by done. by left.
      * right. split; [by right|]. exists z. split; [by right|done].
Qed.

(** X6: a match never makes up a handler or a binding: the handler it
    returns is a terminal of the tree, every name it binds is the name of a
    variable segment of some template of the tree, and every value it binds
    is a segment of the input. *)
Theorem matchPathToEndpoint_sound h segments m :
  matchPathToEndpoint h segments = Some m →
  getValue m ∈ terminals (Subtree h) ∧
  ∀ key v, variables m !! key = Some v →
    v ∈ segments ∧
    ∃ x, x ∈ templateSegments (Subtree h) ∧ startsWithColon x = true ∧
         key = slice1 x.
Proof.
  revert segments m.
  cut (∀ sub c, sub = Subtree c → ∀ segments m,
         matchPathToEndpoint c segments = Some m →
         getValue m ∈ terminals (Subtree c) ∧
         ∀ key v, variables m !! key = Some v →
           v ∈ segments ∧
           ∃ x, x ∈ templateSegments (Subtree c) ∧ startsWithColon x = true ∧
                key = slice1 x).
  { intros H. by apply (H (Subtree h)). }
  clear h. intros sub.
  induction sub as [f|h IH] using Subrouter_nested_ind; [done|].
  intros c [= <-] segments m.
  induction h as [|[path sub] h IHh]; [done|].
  apply Forall_cons in IH as [Hsub Hrest]. cbn [snd] in Hsub.
  rewrite matchPathToEndpoint_cons, terminals_cons, templateSegments_cons.
  cbn [fst snd].
  destruct (tryEntry path sub segments) as [m'|] eqn:Htry.
  - intros [= ->]. unfold tryEntry in Htry.
    destruct (length segments <? length path)%nat; [done|].
    destruct ((length path <? length segments)%nat && isFunction sub); [done|].
    destruct (checkPathSegments path segments ∅) as [vars|] eqn:Hvars; [|done].
    assert (Houter : ∀ key v, vars !! key = Some v →
              v ∈ segments ∧
              ∃ x, x ∈ path ++ templateSegments sub ++ templateSegments (Subtree h) ∧
                   startsWithColon x = true ∧ key = slice1 x).
    { intros key v Hkey.
      destruct (checkPathSegments_bindings _ _ _ _ _ _ Hvars Hkey)
        as [Hempty|(Hv & x & Hx & Hc & ->)]; [by rewrite lookup_empty in Hempty|].
      split; [done|]. exists x. split; [|done]. apply elem_of_app. by left. }
    destruct (length path =? length segments)%nat.
    + destruct sub as [f|c].
      * injection Htry as <-. cbn [getValue variables terminals].
        split; [by left|exact Houter].
      * destruct (getIndexHandler c) as [indexHandler|] eqn:Hidx; [|done].
        injection Htry as <-. cbn [getValue variables].
        split; [|exact Houter]. apply elem_of_app. left.
        by apply indexHandlerOf_terminal.
    + destruct sub as [f|c]; [done|].
      destruct (matchPathToEndpoint c (drop (length path) segments))
        as [fn|] eqn:Hfn; [|done].
      injection Htry as <-. cbn [getValue variables].
      destruct (Hsub c eq_refl _ _ Hfn) as [Hterm Hinner].
      split; [apply elem_of_app; by left|].
      intros key v Hkey. unfold spread in Hkey.
      apply lookup_union_Some_raw in Hkey as [Hkey|[_ Hkey]].
      * destruct (Hinner key v Hkey) as (Hv & x & Hx & Hc & ->).
        split; [by eapply subseteq_drop|].
        exists x. split; [|done]. apply elem_of_app. right.
        apply elem_of_app. by left.
      * by apply Houter.
  - intros Hm. destruct (IHh Hrest Hm) as [Hterm Hvars].
    split; [apply elem_of_app; by right|].
    intros key v Hkey. destruct (Hvars key v Hkey) as (Hv & x & Hx & Hc & ->).
    split; [done|]. exists x. split; [|done].
    apply elem_of_app. right. apply elem_of_app. by right.
Qed.

End MatchFacts.

Lemma getIndexHandler_first_index_entry_witness :
  getIndexHandler
    [(["a"], Terminal 1%nat); ([EmptyString], Subtree []);
     ([EmptyString], Terminal 2%nat)] = None.
Proof.
  exact (proj1 (getIndexHandler_first_index_entry (T:=nat))
           [(["a"], Terminal 1%nat)] [EmptyString] (Subtree [])
           [([EmptyString], Terminal 2%nat)]
           ltac:(by repeat constructor) eq_refl).
Defined.

Lemma matchPathToEndpoint_sound_witness :
  getValue (mkMatched {["id" := "7"; "mid" := "9"]} 1%nat) ∈
    terminals
      (Subtree [(["user"; ":id"], Subtree [(["msg"; ":mid"], Terminal 1%nat)])]).
Proof.
  refine (proj1 (matchPathToEndpoint_sound
                   [(["user"; ":id"], Subtree [(["msg"; ":mid"], Terminal 1%nat)])]
                   ["user"; "7"; "msg"; "9"] _ _)).
  vm_compute. reflexivity.
Defined.

Section MatchEdges.

Context {T : Type}.
Implicit Types (path segments : list string).

Lemma checkPathSegments_literal path : ∀ segments (vars : gmap string string),
  Forall (λ x, startsWithColon x = false) path →
  length segments = length path →
  checkPathSegments path segments vars =
  if decide (segments = path) then Some vars else None.
Proof.
  induction path as [|x path IH]; intros [|y segments] vars Hlit Hlen;
    try done.
  apply Forall_cons in Hlit as [Hx Hlit]. cbn [checkPathSegments].
  case_bool_decide as Hxy.
  - subst y. rewrite (IH segments vars Hlit) by (simpl in Hlen; lia).
    destruct (decide (segments = path)) as [->|Hne].
    + by rewrite decide_True.
    + rewrite decide_False; [done|]. by intros [= ?].
  - rewrite Hx. rewrite decide_False; [done|]. intros [= ? ?]. by destruct Hxy.
Qed.

(** X7: a terminal whose template has no variable segment matches the
    input that spells the template, and no other, and binds nothing. *)
Theorem literal_route_matches_itself_only path (f : T) segments :
  Forall (λ x, startsWithColon x = false) path →
  matchPathToEndpoint [(path, Terminal f)] segments =
  if decide (segments = path) then Some (mkMatched ∅ f) else None.
Proof.
  intros Hlit. rewrite matchPathToEndpoint_singleton. cbn [fst snd].
  unfold tryEntry. cbn [isFunction]. rewrite andb_true_r.
  destruct (Nat.ltb_spec (length segments) (length path)).
  { rewrite decide_False; [done|]. intros ->. lia. }
  destruct (Nat.ltb_spec (length path) (length segments)).
  { rewrite decide_False; [done|]. intros ->. lia. }
  rewrite (checkPathSegments_literal path segments ∅ Hlit) by lia.
  destruct (decide (segments = path)) as [->|]; [|done].
  by rewrite Nat.eqb_refl.
Qed.

Lemma checkPathSegments_app path : ∀ segments extra (vars : gmap string string),
  (length path ≤ length segments)%nat →
  checkPathSegments path (segments ++ extra) vars =
  checkPathSegments path segments vars.
Proof.
  induction path as [|x path IH]; intros [|y segments] extra vars Hlen;
    simpl in Hlen; try lia.
  - by destruct extra.
  - done.
  - cbn [app checkPathSegments]. case_bool_decide.
    + apply IH. lia.
    + destruct (startsWithColon x); [|done]. apply IH. lia.
Qed.

Lemma matchPathToEndpoint_index_reached path (f : T) rest segments
    (vars : gmap string string) :
  length segments = length path →
  checkPathSegments path segments ∅ = Some vars →
  let tree := [(path, Subtree (([EmptyString], Terminal f) :: rest))] in
  matchPathToEndpoint tree segments = Some (mkMatched vars f) ∧
  matchPathToEndpoint tree (segments ++ [EmptyString]) = Some (mkMatched vars f).
Proof.
  intros Hlen Hvars tree. subst tree.
  rewrite !matchPathToEndpoint_singleton. cbn [fst snd]. unfold tryEntry.
  cbn [isFunction]. rewrite !andb_false_r, length_app. cbn [length].
  rewrite checkPathSegments_app by lia. rewrite Hvars.
  destruct (Nat.ltb_spec (length segments) (length path)); [lia|].
  destruct (Nat.ltb_spec (length segments + 1) (length path)); [lia|].
  destruct (Nat.eqb_spec (length path) (length segments)); [|lia].
  destruct (Nat.eqb_spec (length path) (length segments + 1)); [lia|].
  split; [done|].
  rewrite <- Hlen, drop_app_length.
  assert (matchPathToEndpoint (([EmptyString], Terminal f) :: rest)
            [EmptyString] = Some (mkMatched ∅ f)) as ->.
  { by rewrite matchPathToEndpoint_cons. }
  cbn [variables getValue]. unfold spread.
  by rewrite (left_id_L ∅ (∪)).
Qed.

(** X8: when the first entry of a router's subtree is a terminal declared
    under the empty key or under ["/"], a request that matches the router's
    template reaches that terminal with the same bindings whether or not
    the request path ends with a slash. *)
Theorem index_endpoint_ignores_trailing_slash
    path (f : T) rest (request : string) (vars : gmap string string) :
  length (splitSlash request) = length path →
  checkPathSegments path (splitSlash request) ∅ = Some vars →
  let tree := [(path, Subtree (([EmptyString], Terminal f) :: rest))] in
  splitSlash (removeWrappingSlashes EmptyString) = [EmptyString] ∧
  splitSlash (removeWrappingSlashes "/") = [EmptyString] ∧
  matchPathToEndpoint tree
    (splitSlash (removeWrappingSlashes ("/" +:+ request))) =
    Some (mkMatched vars f) ∧
  matchPathToEndpoint tree
    (splitSlash (removeWrappingSlashes ("/" +:+ request +:+ "/"))) =
    Some (mkMatched vars f).
Proof.
  intros Hlen Hvars tree. split; [done|]. split; [done|].
  rewrite !append_String, !append_empty_l. cbn [removeWrappingSlashes].
  unfold splitSlash in *. rewrite splitOn_app_sep.
  exact (matchPathToEndpoint_index_reached path f rest _ vars Hlen Hvars).
Qed.

End MatchEdges.

(** X9: a failure without a custom code maps to a status between 400 and
    500, so the close code of a setup handler that rejects with it is
    between 4400 and 4500, a code [ws] accepts.  On a socket the handler
    has not closed itself, the close with that code and the reason
    [JSON.stringify({ error })] is sent, after whatever the handler did on
    the socket, when the reason is at most 123 bytes long; when the reason
    is longer, nothing is added to what the handler did: no close frame is
    sent. *)
Theorem setup_failure_close_code_range endpoint query conn err :
  handler (getValue endpoint) (newConnection (validators (getValue endpoint)))
    (variables endpoint) query = (conn, Some err) →
  match err with ERPCError o => customCode o = None | _ => True end →
  closing conn = false →
  let code := 4000 + status (transformERPCError err) in
  let reason := Stringified (VObj [("error", error (transformERPCError err))]) in
  400 ≤ status (transformERPCError err) ≤ 500 ∧
  4400 ≤ code ≤ 4500 ∧
  isValidStatusCode code = true ∧
  ∃ text,
    wireText reason = Some text ∧
    socket (upgraded endpoint query) =
    if (String.length text <=? 123)%nat
    then socket conn ++ [Close code reason]
    else socket conn.
Proof.
  intros Hsetup Hcustom Hopen code reason.
  assert (400 ≤ status (transformERPCError err) ≤ 500) as Hrange.
  { destruct err as [[kind msg custom]| |]; cbn in *; [|lia..].
    subst custom. destruct kind; cbn; lia. }
  assert (isValidStatusCode code = true) as Hvalid.
  { unfold isValidStatusCode. apply orb_true_iff. right.
    apply andb_true_iff. split; apply Z.leb_le; subst code; lia. }
  split; [done|]. split; [subst code; lia|]. split; [done|].
  rewrite (upgraded_after_failure endpoint query conn err Hsetup Hopen).
  fold code reason. unfold closeAccepted. rewrite Hvalid. cbn [andb].
  destruct (wireText reason) as [text|] eqn:Htext.
  - exists text. split; [done|]. by destruct (String.length text <=? 123)%nat.
  - by destruct (stringify_object [("error", error (transformERPCError err))])
      as [text Hsome]; unfold reason, wireText in Htext; rewrite Hsome in Htext.
Qed.

Lemma literal_route_matches_itself_only_witness :
  matchPathToEndpoint [(["gateway"], Terminal 1%nat)] ["gateway"; "x"] = None.
Proof.
  exact (literal_route_matches_itself_only ["gateway"] 1%nat ["gateway"; "x"]
           ltac:(by repeat constructor)).
Defined.

Lemma index_endpoint_ignores_trailing_slash_witness :
  let tree := [(["room"; ":id"],
                Subtree [([EmptyString], Terminal 1%nat)])] in
  matchPathToEndpoint tree (splitSlash (removeWrappingSlashes "/room/7")) =
    Some (mkMatched {["id" := "7"]} 1%nat) ∧
  matchPathToEndpoint tree (splitSlash (removeWrappingSlashes "/room/7/")) =
    Some (mkMatched {["id" := "7"]} 1%nat).
Proof.
  intros tree.
  exact (proj2 (proj2 (index_endpoint_ignores_trailing_slash
                         ["room"; ":id"] 1%nat [] "room/7" {["id" := "7"]}
                         eq_refl eq_refl))).
Defined.

Lemma setup_failure_close_code_range_witness :
  let he := mkHeirarchyEnd ∅
    (λ conn _ _, (conn, Some (OtherError "database unreachable"))) in
  socket (upgraded (mkMatched ∅ he) ∅) =
  [Close 4500 (Stringified (VObj [("error", VStr "database unreachable")]))].
Proof.
  intros he.
  destruct (setup_failure_close_code_range (mkMatched ∅ he) ∅
              (newConnection ∅) (OtherError "database unreachable")
              eq_refl I eq_refl)
    as (_ & _ & _ & text & Htext & Hsocket).
  rewrite Hsocket. vm_compute in Htext. injection Htext as <-. reflexivity.
Defined.

(** ** Building and validating procedures *)

Section ProcedureMore.

Context {Request : Type}.
Implicit Types (σ : gmap positive (list (Middleware Request))).
Implicit Types (p : GenerateProcedure) (s mw : Middleware Request).
Implicit Types (steps pre post ss : list (Middleware Request)).
Implicit Types (sink : Thrown → Request → Response → Response).
Implicit Types (res : Response) (req : Request).

(** X10: extending a procedure with a list of steps, one [extend] after
    the other, gives a procedure whose steps are the receiver's followed by
    the list in order, and changes no array the store already held. *)
Theorem extendAll_appends ss : ∀ σ p steps,
  σ !! previous p = Some steps →
  (extendAll p ss σ).2 !! previous (extendAll p ss σ).1 = Some (steps ++ ss) ∧
  ∀ l, is_Some (σ !! l) → (extendAll p ss σ).2 !! l = σ !! l.
Proof.
  induction ss as [|s ss IH]; intros σ p steps Hp.
  - cbn. by rewrite app_nil_r.
  - cbn [extendAll]. unfold mbind, Heap_bind.
    destruct (extend_appends p s σ steps Hp) as [Hchild Hframe].
    destruct (extend p s σ) as [child σ']. cbn [fst snd] in *.
    destruct (IH σ' child (steps ++ [s]) Hchild) as [Hall Hframe'].
    split.
    + by rewrite Hall, <- app_assoc.
    + intros l Hl. rewrite Hframe'; [by apply Hframe|].
      by rewrite Hframe.
Qed.

Lemma StepsSucceed_snoc req pre mw res0 res1 res2 result :
  StepsSucceed req pre res0 res1 →
  mw req res1 = (res2, inr result) →
  StepsSucceed req (pre ++ [mw]) res0 (assignLocals result res2).
Proof.
  induction 1 as [res|first rest res res' r res'' Hfirst Hrest IH]; intros Hmw.
  - eapply steps_next; [exact Hmw|]. apply steps_done.
  - cbn [app]. eapply steps_next; [exact Hfirst|]. by apply IH.
Qed.

Section WithRequestFields.

Variable reqBody : Request → Value.
Variable reqQuery : Request → list (string * Value).
Variable base64urlDecode : string → string.
Variable JSON_parse : string → string + Value.

(** What a validating step does at the end of a chain whose steps
    resolve: a rejection with an error goes to the error handler and the
    handler is not run; a result is merged and the handler runs. *)
Lemma validating_step_outcome
    σ p steps mw (endpoint : EndpointHandler Request) sink req res0 res1
    res2 outcome :
  σ !! previous p = Some steps →
  StepsSucceed req steps res0 res1 →
  mw req res1 = (res2, outcome) →
  match outcome with
  | inl err => nextAction (Some err) = Fail err
  | inr _ => True
  end →
  let x := handleRequest (use (extend p mw σ).1 endpoint (extend p mw σ).2).1
             sink req res0 in
  match outcome with
  | inl err =>
      trace x = (StepRun <$> seq 0 (S (length steps))) ++ [SinkRun err] ∧
      res x = sink err req res2
  | inr result =>
      ∃ rest,
        trace x = (StepRun <$> seq 0 (S (length steps))) ++
                  HandlerRun (locals (assignLocals result res2)) :: rest
  end.
Proof.
  intros Hp Hsteps Hmw Hnext x. subst x.
  destruct (extend_appends p mw σ steps Hp) as [Hchild _].
  destruct (extend p mw σ) as [child σ']. cbn [fst snd] in *.
  rewrite (use_stack child endpoint σ' _ Hchild). cbn [fst].
  unfold handleRequest.
  change (imap stepWrapper (steps ++ [mw]))
    with (imap (λ i, stepWrapper (0 + i)) (steps ++ [mw])).
  destruct outcome as [err|result].
  - by rewrite (dispatch_steps_fail steps mw [] 0 _ sink req _ res1 res2 err).
  - rewrite (dispatch_steps_succeed (steps ++ [mw]) 0 _ sink req _
               (assignLocals result res2))
      by (cbn [res]; by eapply StepsSucceed_snoc).
    rewrite length_app, Nat.add_comm. cbn [length Nat.add].
    apply dispatch_handler_entered.
Qed.

(** X11: [input(checker)] appends a step that validates [req.body]: when
    the steps before it resolve and the checker rejects the body, the error
    handler receives a BAD_REQUEST error carrying the checker's message and
    the handler is not run; when the checker accepts, the handler runs with
    the parsed body under [input], over whatever was there. *)
Theorem input_validates_body
    σ p steps (checker : Validator) (endpoint : EndpointHandler Request)
    sink req res0 res1 :
  σ !! previous p = Some steps →
  StepsSucceed req steps res0 res1 →
  let built := input reqBody p checker σ in
  let x := handleRequest (use built.1 endpoint built.2).1 sink req res0 in
  match checker (reqBody req) with
  | inl msg =>
      trace x = (StepRun <$> seq 0 (S (length steps))) ++
                [SinkRun (ERPCError (mkOpts BAD_REQUEST msg None))] ∧
      res x = sink (ERPCError (mkOpts BAD_REQUEST msg None)) req res1
  | inr parsed =>
      ∃ rest,
        trace x = (StepRun <$> seq 0 (S (length steps))) ++
                  HandlerRun (<["input" := parsed]> (locals res1)) :: rest
  end.
Proof.
  intros Hp Hsteps built x. subst x built. unfold input.
  destruct (checker (reqBody req)) as [msg|parsed] eqn:Hcheck.
  - apply (validating_step_outcome σ p steps (bodyValidator reqBody checker)
             endpoint sink req res0 res1 res1 (inl _) Hp Hsteps); [|done].
    unfold bodyValidator. by rewrite Hcheck.
  - apply (validating_step_outcome σ p steps (bodyValidator reqBody checker)
             endpoint sink req res0 res1 res1 (inr [("input", parsed)])
             Hp Hsteps); [|done].
    unfold bodyValidator. by rewrite Hcheck.
Qed.

(** X12: [query(checker)] appends a step that validates the query: the
    decoded and parsed [__erpc_query] parameter when it is a string,
    [req.query] otherwise.  A string that does not parse, or a value the
    checker rejects, sends a BAD_REQUEST error with that message to the
    error handler; an accepted value is put under [query] for the handler. *)
Theorem query_validates_query
    σ p steps (checker : Validator) (endpoint : EndpointHandler Request)
    sink req res0 res1 :
  σ !! previous p = Some steps →
  StepsSucceed req steps res0 res1 →
  let built := query reqQuery base64urlDecode JSON_parse p checker σ in
  let x := handleRequest (use built.1 endpoint built.2).1 sink req res0 in
  let validated :=
    match objGet "__erpc_query" (reqQuery req) with
    | Some (VStr encoded) =>
        match JSON_parse (base64urlDecode encoded) with
        | inl msg => inl msg
        | inr q => checker q
        end
    | _ => checker (VObj (reqQuery req))
    end in
  match validated with
  | inl msg =>
      trace x = (StepRun <$> seq 0 (S (length steps))) ++
                [SinkRun (ERPCError (mkOpts BAD_REQUEST msg None))] ∧
      res x = sink (ERPCError (mkOpts BAD_REQUEST msg None)) req res1
  | inr parsed =>
      ∃ rest,
        trace x = (StepRun <$> seq 0 (S (length steps))) ++
                  HandlerRun (<["query" := parsed]> (locals res1)) :: rest
  end.
Proof.
  intros Hp Hsteps built x validated. subst x built. unfold query.
  assert (Hstep : queryValidator reqQuery base64urlDecode JSON_parse checker
                    req res1 =
                  (res1, match validated with
                         | inl msg => inl (ERPCError (mkOpts BAD_REQUEST msg None))
                         | inr parsed => inr [("query", parsed)]
                         end)).
  { subst validated. unfold queryValidator, queryOf.
    destruct (objGet "__erpc_query" (reqQuery req)) as [[]|];
      try (by destruct (checker (VObj (reqQuery req)))).
    destruct (JSON_parse (base64urlDecode s)) as [msg|q]; [done|].
    by destruct (checker q). }
  pose proof (validating_step_outcome σ p steps
                (queryValidator reqQuery base64urlDecode JSON_parse checker)
                endpoint sink req res0 res1 res1 _ Hp Hsteps Hstep) as H.
  destruct validated; by apply H.
Qed.

End WithRequestFields.


End ProcedureMore.

Lemma extendAll_appends_witness :
  let s1 : Middleware unit := resolvesWith [("user", VStr "u")] in
  let s2 : Middleware unit := resolvesWith [("isAdmin", VBool true)] in
  let σ : gmap positive (list (Middleware unit)) :=
    {[ 1%positive := [baseMiddleware] ]} in
  let built := extendAll (mkProcedure 1%positive) [s1; s2] σ in
  built.2 !! previous built.1 = Some [baseMiddleware; s1; s2].
Proof.
  intros s1 s2 σ built.
  exact (proj1 (extendAll_appends [s1; s2] σ (mkProcedure 1%positive)
                  [baseMiddleware] eq_refl)).
Defined.

Lemma input_validates_body_witness :
  let checker : Value → string + Value :=
    λ v, match v with VStr _ => inr v | _ => inl "Expected string" end in
  let σ : gmap positive (list (Middleware Value)) :=
    {[ 1%positive := [baseMiddleware] ]} in
  let endpoint : EndpointHandler Value := λ _ res, (res, inr VNull) in
  let sink : Thrown → Value → Response → Response := λ _ _ res, res in
  let built := input (λ req, req) (mkProcedure 1%positive) checker σ in
  trace (handleRequest (use built.1 endpoint built.2).1 sink (VNum 3)
           freshResponse) =
  [StepRun 0; StepRun 1;
   SinkRun (ERPCError (mkOpts BAD_REQUEST "Expected string" None))].
Proof.
  intros checker σ endpoint sink built.
  exact (proj1 (input_validates_body (λ req, req) σ (mkProcedure 1%positive)
                  [baseMiddleware] checker endpoint sink (VNum 3)
                  freshResponse freshResponse eq_refl
                  (steps_next (VNum 3) baseMiddleware [] freshResponse
                     freshResponse [] freshResponse eq_refl
                     (steps_done (VNum 3) freshResponse)))).
Defined.

Lemma query_validates_query_witness :
  let checker : Value → string + Value := λ v, inr v in
  let JSON_parse : string → string + Value := λ _, inl "Unexpected end of JSON input" in
  let σ : gmap positive (list (Middleware (list (string * Value)))) :=
    {[ 1%positive := [baseMiddleware] ]} in
  let endpoint : EndpointHandler (list (string * Value)) :=
    λ _ res, (res, inr VNull) in
  let sink : Thrown → list (string * Value) → Response → Response :=
    λ _ _ res, res in
  let built := query (λ req, req) (λ s, s) JSON_parse (mkProcedure 1%positive)
                 checker σ in
  trace (handleRequest (use built.1 endpoint built.2).1 sink
           [("__erpc_query", VStr "e30")] freshResponse) =
  [StepRun 0; StepRun 1;
   SinkRun (ERPCError (mkOpts BAD_REQUEST "Unexpected end of JSON input" None))].
Proof.
  intros checker JSON_parse σ endpoint sink built.
  exact (proj1 (query_validates_query (λ req, req) (λ s, s) JSON_parse σ
                  (mkProcedure 1%positive) [baseMiddleware] checker endpoint
                  sink [("__erpc_query", VStr "e30")] freshResponse freshResponse
                  eq_refl
                  (steps_next _ baseMiddleware [] freshResponse
                     freshResponse [] freshResponse eq_refl
                     (steps_done _ freshResponse)))).
Defined.


(** ** Frames, registrations and the wire *)

Section ConnectionMore.

Variable JSON_parse : string → option Value.
Variable JSON_stringify : Value → string.

(** X14: whatever the frame, the listener resolves; it either drops the
    frame, leaving the whole connection as it was, or invokes one
    registered handler, once, with what the event's validator returned for
    the frame's data, and then the calls added on the socket are those the
    handler made. *)
Theorem onMessage_runs_at_most_one_handler conn stringified :
  let '(conn', settled) := onMessage JSON_parse conn stringified in
  settled = Resolved ∧
  ((conn' = conn ∧ frameRejected JSON_parse conn stringified) ∨
   ∃ parsed eventName data registered validator parsedData,
     JSON_parse stringified = Some parsed ∧
     reqValidator parsed = Some (eventName, data) ∧
     socketEventHandlerMap conn !! eventName = Some registered ∧
     connValidators conn !! eventName = Some validator ∧
     validator data = inr parsedData ∧
     socket conn' = socket conn ++ (registered parsedData).1 ∧
     invoked conn' = invoked conn ++ [(eventName, parsedData)]).
Proof.
  unfold onMessage, tryDispatch.
  destruct (JSON_parse stringified) as [parsed|] eqn:Hparse;
    [|split; [done|]; left; split; [done|]; by left].
  destruct (reqValidator parsed) as [[eventName data]|] eqn:Henv;
    [|split; [done|]; left; split; [done|]; right; left; by exists parsed].
  destruct (socketEventHandlerMap conn !! eventName) as [registered|] eqn:Hh;
    [|split; [done|]; left; split; [done|]; right; right;
      exists parsed, eventName, data; by auto].
  destruct (connValidators conn !! eventName) as [validator|] eqn:Hv;
    [|split; [done|]; left; split; [done|]; right; right;
      exists parsed, eventName, data; by auto].
  destruct (validator data) as [msg|parsedData] eqn:Hdata;
    [split; [done|]; left; split; [done|]; right; right;
     exists parsed, eventName, data; split; [done|]; split; [done|];
     right; right; by exists validator, msg|].
  destruct (registered parsedData) as [calls failure] eqn:Hrun.
  destruct failure; cbn [socket invoked];
    (split; [done|]; right;
     exists parsed, eventName, data, registered, validator, parsedData;
     by rewrite Hrun).
Qed.

(** X15: registering a handler for an event that has one replaces it, and
    touches nothing else: the connection is as if only the later handler
    had been registered, other events keep their handlers, and a frame for
    the event is handled as on that connection. *)
Theorem on_replaces_earlier_handler
    conn eventName (first second : Value → list SocketCall * option Thrown) :
  on eventName second (on eventName first conn) = on eventName second conn ∧
  (∀ other, other ≠ eventName →
     socketEventHandlerMap (on eventName second conn) !! other =
     socketEventHandlerMap conn !! other) ∧
  socketEventHandlerMap (on eventName second (on eventName first conn))
    !! eventName = Some second ∧
  ∀ stringified,
    onMessage JSON_parse (on eventName second (on eventName first conn))
      stringified =
    onMessage JSON_parse (on eventName second conn) stringified.
Proof.
  assert (on eventName second (on eventName first conn) =
          on eventName second conn) as Heq.
  { unfold on. cbn [socketEventHandlerMap connValidators socket invoked].
    by rewrite insert_insert_eq. }
  split; [exact Heq|]. split; [|split].
  - intros other Hne. unfold on. cbn [socketEventHandlerMap].
    by rewrite lookup_insert_ne.
  - rewrite Heq. unfold on. cbn [socketEventHandlerMap].
    apply lookup_insert_eq.
  - intros stringified. by rewrite Heq.
Qed.

(** X16: what [emit] hands to the socket is one frame, after the calls
    made before; when the text the peer receives for it parses back to the
    envelope, a peer with a handler and a validator for the event invokes
    the handler with the validated payload. *)
Theorem emit_reaches_registered_handler
    sender receiver eventName data
    (registered : Value → list SocketCall * option Thrown)
    (validator : Value → string + Value) parsedData :
  let envelope := VObj [("eventName", VStr eventName); ("data", data)] in
  socket (emit eventName data sender) =
    socket sender ++ [Send (Stringified envelope)] ∧
  (JSON_parse (delivered JSON_stringify (Stringified envelope)) = Some envelope →
   socketEventHandlerMap receiver !! eventName = Some registered →
   connValidators receiver !! eventName = Some validator →
   validator data = inr parsedData →
   onMessage JSON_parse receiver
     (delivered JSON_stringify (Stringified envelope)) =
   ({| socketEventHandlerMap := socketEventHandlerMap receiver;
       connValidators := connValidators receiver;
       socket := socket receiver ++ (registered parsedData).1;
       invoked := invoked receiver ++ [(eventName, parsedData)] |},
    Resolved)).
Proof.
  intros envelope. split; [done|].
  intros Hwire Hh Hv Hdata. unfold onMessage, tryDispatch.
  rewrite Hwire.
  assert (reqValidator envelope = Some (eventName, data)) as -> by reflexivity.
  rewrite Hh, Hv, Hdata.
  destruct (registered parsedData) as [calls [err|]]; reflexivity.
Qed.

End ConnectionMore.

Lemma emit_reaches_registered_handler_witness :
  let JSON_stringify : Value → string := λ _, "frame" in
  let JSON_parse : string → option Value :=
    λ _, Some (VObj [("eventName", VStr "send_message");
                     ("data", VObj [("contents", VStr "Hello World!")])]) in
  let registered : Value → list SocketCall * option Thrown :=
    λ v, ([Send (Stringified (VObj [("eventName", VStr "new_message");
                                   ("data", v)]))], None) in
  let receiver :=
    on "send_message" registered (newConnection {[ "send_message" := inr ]}) in
  (onMessage JSON_parse receiver
     (delivered JSON_stringify
        (Stringified (VObj [("eventName", VStr "send_message");
                            ("data", VObj [("contents", VStr "Hello World!")])])))).2
  = Resolved.
Proof.
  intros JSON_stringify JSON_parse registered receiver.
  rewrite (proj2 (emit_reaches_registered_handler JSON_parse JSON_stringify
                    (newConnection ∅) receiver "send_message"
                    (VObj [("contents", VStr "Hello World!")])
                    registered inr
                    (VObj [("contents", VStr "Hello World!")]))
             eq_refl eq_refl eq_refl eq_refl).
  reflexivity.
Defined.

Lemma on_replaces_earlier_handler_witness :
  let first : Value → list SocketCall * option Thrown := λ _, ([], None) in
  let conn := on "typing" first (newConnection ∅) in
  socketEventHandlerMap (on "send_message" first conn) !! "typing" =
  socketEventHandlerMap conn !! "typing".
Proof.
  intros first conn.
  exact (proj1 (proj2 (on_replaces_earlier_handler (λ _, None) conn
                         "send_message" first first))
           "typing" ltac:(discriminate)).
Defined.

(** ** Upgrade requests *)

Lemma startsWith_append prefix rest : startsWith prefix (prefix +:+ rest) = true.
Proof.
  induction prefix as [|c prefix IH]; [done|].
  rewrite append_String. cbn [startsWith]. by rewrite Ascii.eqb_refl, IH.
Qed.

Lemma dropPrefix_append prefix rest : dropPrefix prefix (prefix +:+ rest) = rest.
Proof.
  induction prefix as [|c prefix IH]; [by destruct rest|].
  rewrite append_String. cbn [dropPrefix]. exact IH.
Qed.

(** X17: the configured prefix is taken off the front of the URL as text:
    a request under the prefix is handled as the request for the rest of
    the URL would be without a prefix, and a request whose URL does not
    start with the prefix is handled as it is. *)
Theorem apiPrefix_is_stripped prefix routes kept :
  (∀ rest,
     webSocketHandler (Some prefix) routes kept (prefix +:+ rest) =
     webSocketHandler None routes kept rest) ∧
  (∀ url,
     startsWith prefix url = false →
     webSocketHandler (Some prefix) routes kept url =
     webSocketHandler None routes kept url).
Proof.
  split.
  - intros rest. unfold webSocketHandler.
    by rewrite startsWith_append, dropPrefix_append.
  - intros url Hurl. unfold webSocketHandler. by rewrite Hurl.
Qed.

Lemma apiPrefix_is_stripped_witness :
  let he := mkHeirarchyEnd ∅ (λ conn _ _, (conn, None)) in
  webSocketHandler (Some "/api") [("/gateway", RawTerminal he)] None "/gateway" =
  webSocketHandler None [("/gateway", RawTerminal he)] None "/gateway".
Proof.
  intros he.
  exact (proj2 (apiPrefix_is_stripped "/api" [("/gateway", RawTerminal he)] None)
           "/gateway" eq_refl).
Defined.








(** ** Routers and the routes a server sees *)

Section RouterFacts.

Implicit Types (σ : gmap positive (list (string * WsNode))).
Implicit Types (r router : RouterT) (props : list (string * WsNode)).

Lemma Router_inv path parent σ r σ' :
  Router path parent σ = Some (r, σ') →
  ∃ props,
    ordinaryKey path = true ∧ σ !! parent = Some props ∧
    σ !! wsRouter r = None ∧ subroutedAt r = path ∧
    σ' = <[parent := setProp path (WsRef (wsRouter r)) props]>
           (<[wsRouter r := []]> σ).
Proof.
  unfold Router. destruct (ordinaryKey path); [|done].
  destruct (σ !! parent) as [props|] eqn:Hparent; [|done].
  intros [= <- <-]. exists props. cbn [wsRouter subroutedAt].
  repeat split; try done. apply not_elem_of_dom, is_fresh.
Qed.

Lemma ws_inv r path he σ σ' :
  ws r path he σ = Some σ' →
  ∃ props,
    ordinaryKey path = true ∧ σ !! wsRouter r = Some props ∧
    σ' = <[wsRouter r := setProp path (WsFn he) props]> σ.
Proof.
  unfold ws. destruct (ordinaryKey path); [|done].
  destruct (σ !! wsRouter r) as [props|]; [|done].
  intros [= <-]. by exists props.
Qed.

Lemma newServer_inv σ server σ' :
  newServer None σ = Some (server, σ') →
  σ !! rawWsRouter server = None ∧
  σ !! wsRouter (rootRouter server) = None ∧
  rawWsRouter server ≠ wsRouter (rootRouter server) ∧
  compiledWsRouter server = None ∧
  σ' = <[rawWsRouter server := [("/", WsRef (wsRouter (rootRouter server)))]]>
         (<[wsRouter (rootRouter server) := []]> σ).
Proof.
  unfold newServer.
  destruct (Router "/" (fresh (dom σ)) (<[fresh (dom σ) := []]> σ))
    as [[r σ1]|] eqn:Hrouter; [|done].
  intros [= <- <-]. cbn [rawWsRouter rootRouter compiledWsRouter].
  apply Router_inv in Hrouter as (props & _ & Hraw & Hroot & _ & ->).
  rewrite lookup_insert_eq in Hraw. injection Hraw as <-.
  assert (σ !! fresh (dom σ) = None) as Hfresh
    by apply not_elem_of_dom, is_fresh.
  assert (fresh (dom σ) ≠ wsRouter r) as Hne.
  { intros Heq. rewrite <- Heq, lookup_insert_eq in Hroot. done. }
  rewrite lookup_insert_ne in Hroot by done.
  repeat split; try done.
  cbn [setProp]. rewrite (insert_insert_ne _ (wsRouter r)) by done.
  by rewrite insert_insert_eq.
Qed.

Lemma setProp_same key old v : setProp key v [(key, old)] = [(key, v)].
Proof. cbn. by rewrite bool_decide_eq_true_2. Qed.

Lemma getProp_setProp key v props :
  getProp key (setProp key v props) = Some v ∧
  (∀ other, other ≠ key →
     getProp other (setProp key v props) = getProp other props) ∧
  (setProp key v props).*1 =
    if decide (key ∈ props.*1) then props.*1 else props.*1 ++ [key].
Proof.
  induction props as [|[k old] props (IHget & IHother & IHkeys)].
  - cbn. rewrite bool_decide_eq_true_2 by done. split; [done|].
    split; [|done]. intros other Hne. by rewrite bool_decide_eq_false_2.
  - cbn [setProp]. case_bool_decide as Hk.
    + subst k. cbn [getProp fmap list_fmap fst].
      rewrite bool_decide_eq_true_2 by done. split; [done|]. split.
      * intros other Hne. by rewrite !bool_decide_eq_false_2.
      * rewrite decide_True; [done|]. by left.
    + cbn [getProp fmap list_fmap fst].
      rewrite bool_decide_eq_false_2 by done. split; [done|]. split.
      * intros other Hne. case_bool_decide; [done|]. by apply IHother.
      * change (list_fmap _ _ fst (setProp key v props))
          with ((setProp key v props).*1).
        change (list_fmap _ _ fst props) with (props.*1). rewrite IHkeys.
        destruct (decide (key ∈ props.*1)) as [Hin|Hout].
        -- rewrite decide_True; [done|]. by right.
        -- rewrite decide_False; [done|].
           intros [?|?]%elem_of_cons; [by destruct Hk|done].
Qed.

(** X19: an endpoint registered on a sub-router is part of the routes the
    server compiles, under the sub-router's path: the root holds the
    sub-router's object itself, so a registration made after [sub] is seen
    from the root. *)
Theorem endpoint_on_subrouter_is_routed
    σ server σ1 r σ2 mount path he σ3 (fuel : nat) apiPrefix url :
  newServer None σ = Some (server, σ1) →
  sub (rootRouter server) mount σ1 = Some (r, σ2) →
  ws r path he σ2 = Some σ3 →
  let routes := [(mount, RawSubroutes [(path, RawTerminal he)])] in
  rootRoutes (S (S fuel)) server σ3 = Some routes ∧
  onUpgrade (S (S fuel)) apiPrefix server σ3 url =
  Some (mkServer (rawWsRouter server) (rootRouter server)
          (Some (compileRouteTree routes)),
        (webSocketHandler apiPrefix routes None url).2).
Proof.
  intros Hserver Hsub Hws routes.
  apply newServer_inv in Hserver as (Hraw & Hroot & Hne & Hkept & ->).
  apply Router_inv in Hsub as (props & _ & Hprops & Hchild & _ & ->).
  apply ws_inv in Hws as (props' & _ & Hprops' & ->).
  set (raw := rawWsRouter server) in *.
  set (root := wsRouter (rootRouter server)) in *.
  set (child := wsRouter r) in *.
  assert (raw ≠ child ∧ root ≠ child) as [Hrc Hoc].
  { split; intros Heq; rewrite <- Heq in Hchild;
      by simplify_map_eq. }
  assert (props = []) as -> by (by simplify_map_eq).
  assert (props' = []) as -> by (by simplify_map_eq).
  assert (rootRoutes (S (S fuel)) server
            (<[child := setProp path (WsFn he) []]>
               (<[root := setProp mount (WsRef child) []]>
                  (<[child := []]>
                     (<[raw := [("/", WsRef root)]]> (<[root := []]> σ)))))
          = Some routes) as Hroutes.
  { unfold rootRoutes. fold raw. by simplify_map_eq. }
  split; [exact Hroutes|].
  unfold onUpgrade. rewrite Hkept, Hroutes. reflexivity.
Qed.

(** X20: mounting a second sub-router at a path where one is mounted
    replaces the first one's object in the parent: the endpoints of the
    first are no longer among the server's routes, and what is registered
    on it afterwards does not reach them either. *)
Theorem second_sub_replaces_first
    σ server σ1 r1 σ2 mount path he σ3 r2 σ4 (fuel : nat) :
  newServer None σ = Some (server, σ1) →
  sub (rootRouter server) mount σ1 = Some (r1, σ2) →
  ws r1 path he σ2 = Some σ3 →
  sub (rootRouter server) mount σ3 = Some (r2, σ4) →
  rootRoutes (S (S fuel)) server σ4 = Some [(mount, RawSubroutes [])] ∧
  ∀ path' he' σ5,
    ws r1 path' he' σ4 = Some σ5 →
    rootRoutes (S (S fuel)) server σ5 = Some [(mount, RawSubroutes [])].
Proof.
  intros Hserver Hsub Hws Hsub2.
  apply newServer_inv in Hserver as (Hraw & Hroot & Hne & Hkept & ->).
  apply Router_inv in Hsub as (props & _ & Hprops & Hchild & _ & ->).
  apply ws_inv in Hws as (props' & _ & Hprops' & ->).
  apply Router_inv in Hsub2 as (props2 & _ & Hprops2 & Hchild2 & _ & ->).
  set (raw := rawWsRouter server) in *.
  set (root := wsRouter (rootRouter server)) in *.
  set (first := wsRouter r1) in *.
  set (second := wsRouter r2) in *.
  assert (raw ≠ first ∧ root ≠ first) as [Hrf Hof].
  { split; intros Heq; rewrite <- Heq in Hchild; by simplify_map_eq. }
  assert (props = []) as -> by (by simplify_map_eq).
  assert (props' = []) as -> by (by simplify_map_eq).
  assert (raw ≠ second ∧ root ≠ second ∧ first ≠ second) as (Hrs & Hos & Hfs).
  { repeat split; intros Heq; rewrite <- Heq in Hchild2; by simplify_map_eq. }
  assert (props2 = [(mount, WsRef first)]) as -> by (by simplify_map_eq).
  rewrite setProp_same.
  split.
  - unfold rootRoutes. fold raw. by simplify_map_eq.
  - intros path' he' σ5 Hws'.
    apply ws_inv in Hws' as (props5 & _ & Hprops5 & ->). fold first in Hprops5 |- *.
    unfold rootRoutes. fold raw. by simplify_map_eq.
Qed.

(** X21: registering a connection endpoint under a path that does not
    begin with a digit and is not [__proto__] writes one property of the
    router's own object: the path then holds the endpoint (also when a
    sub-router was mounted there), the other paths hold what they held,
    and the order of the paths is kept, a path not yet present being added
    last. *)
Theorem ws_registration_keeps_order r path he σ props :
  ordinaryKey path = true →
  σ !! wsRouter r = Some props →
  ∃ props',
    ws r path he σ = Some (<[wsRouter r := props']> σ) ∧
    getProp path props' = Some (WsFn he) ∧
    (∀ other, other ≠ path → getProp other props' = getProp other props) ∧
    props'.*1 = if decide (path ∈ props.*1) then props.*1 else props.*1 ++ [path].
Proof.
  intros Hkey Hprops. exists (setProp path (WsFn he) props).
  unfold ws. rewrite Hkey, Hprops. split; [done|]. apply getProp_setProp.
Qed.

(** X22: the routes are read from the routers once, at the first upgrade
    request: every later request is matched against the tree compiled
    then, whatever has been registered in the meantime. *)
Theorem routes_fixed_at_first_upgrade fuel apiPrefix server σ url server' conn :
  onUpgrade fuel apiPrefix server σ url = Some (server', conn) →
  ∃ tree,
    compiledWsRouter server' = Some tree ∧
    (compiledWsRouter server = None →
     ∃ routes, rootRoutes fuel server σ = Some routes ∧
               tree = compileRouteTree routes) ∧
    ∀ fuel' σ' url',
      onUpgrade fuel' apiPrefix server' σ' url' =
      Some (server', (webSocketHandler apiPrefix [] (Some tree) url').2).
Proof.
  unfold onUpgrade at 1.
  destruct (compiledWsRouter server) as [c|] eqn:Hkept.
  - intros [= <- <-]. exists c. cbn [compiledWsRouter].
    split; [done|]. split; [done|].
    intros fuel' σ' url'. unfold onUpgrade.
    cbn [compiledWsRouter rawWsRouter rootRouter]. reflexivity.
  - destruct (rootRoutes fuel server σ) as [routes|]; [|done].
    intros [= <- <-]. exists (compileRouteTree routes). cbn [compiledWsRouter].
    split; [done|]. split; [by eauto|].
    intros fuel' σ' url'. unfold onUpgrade.
    cbn [compiledWsRouter rawWsRouter rootRouter]. reflexivity.
Qed.

End RouterFacts.

Lemma endpoint_on_subrouter_is_routed_witness :
  let he := mkHeirarchyEnd ∅ (λ conn _ _, (conn, None)) in
  match newServer None ∅ with
  | Some (server, σ1) =>
      match sub (rootRouter server) "/user/:id" σ1 with
      | Some (r, σ2) =>
          match ws r "/msg" he σ2 with
          | Some σ3 =>
              rootRoutes 2 server σ3 =
              Some [("/user/:id", RawSubroutes [("/msg", RawTerminal he)])]
          | None => False
          end
      | None => False
      end
  | None => False
  end.
Proof.
  intros he.
  assert (∃ server σ1 r σ2 σ3,
            newServer None ∅ = Some (server, σ1) ∧
            sub (rootRouter server) "/user/:id" σ1 = Some (r, σ2) ∧
            ws r "/msg" he σ2 = Some σ3)
    as (server & σ1 & r & σ2 & σ3 & Hserver & Hsub & Hws).
  { eexists _, _, _, _, _.
    split; [vm_compute; reflexivity|].
    split; [vm_compute; reflexivity|].
    vm_compute; reflexivity. }
  rewrite Hserver, Hsub, Hws.
  exact (proj1 (endpoint_on_subrouter_is_routed ∅ server σ1 r σ2
                  "/user/:id" "/msg" he σ3 0 None "/user/7/msg"
                  Hserver Hsub Hws)).
Defined.

Lemma second_sub_replaces_first_witness :
  let he := mkHeirarchyEnd ∅ (λ conn _ _, (conn, None)) in
  let server := mkServer 1 (mkRouterT 2 "/") None in
  let σ1 : gmap positive (list (string * WsNode)) :=
    <[1%positive := [("/", WsRef 2)]]> (<[2%positive := []]> ∅) in
  let r1 := mkRouterT (fresh (dom σ1)) "/chat" in
  let σ2 := <[2%positive := setProp "/chat" (WsRef (wsRouter r1)) []]>
              (<[wsRouter r1 := []]> σ1) in
  let σ3 := <[wsRouter r1 := setProp "/room" (WsFn he) []]> σ2 in
  let r2 := mkRouterT (fresh (dom σ3)) "/chat" in
  let σ4 := <[2%positive := setProp "/chat" (WsRef (wsRouter r2))
                              [("/chat", WsRef (wsRouter r1))]]>
              (<[wsRouter r2 := []]> σ3) in
  rootRoutes 2 server σ4 = Some [("/chat", RawSubroutes [])].
Proof.
  intros he server σ1 r1 σ2 σ3 r2 σ4.
  refine (proj1 (second_sub_replaces_first ∅ server σ1 r1 σ2 "/chat" "/room"
                   he σ3 r2 σ4 0 _ _ _ _)).
  - vm_compute. reflexivity.
  - vm_compute. reflexivity.
  - vm_compute. reflexivity.
  - vm_compute. reflexivity.
Defined.

Lemma ws_registration_keeps_order_witness :
  let first := mkHeirarchyEnd ∅ (λ conn _ _, (conn, None)) in
  let again := mkHeirarchyEnd ∅ (λ conn _ _, (emit "hello" VNull conn, None)) in
  let σ : gmap positive (list (string * WsNode)) :=
    {[ 1%positive := [("/a", WsFn first); ("/b", WsFn first)] ]} in
  ∃ props',
    ws (mkRouterT 1 "/") "/a" again σ = Some (<[1%positive := props']> σ) ∧
    getProp "/a" props' = Some (WsFn again) ∧
    props'.*1 = ["/a"; "/b"].
Proof.
  intros first again σ.
  destruct (ws_registration_keeps_order (mkRouterT 1 "/") "/a" again σ
              [("/a", WsFn first); ("/b", WsFn first)] eq_refl eq_refl)
    as (props' & Hws & Hget & _ & Hkeys).
  exists props'. split; [exact Hws|]. split; [exact Hget|exact Hkeys].
Defined.

Lemma routes_fixed_at_first_upgrade_witness :
  let late := mkHeirarchyEnd ∅ (λ conn _ _, (conn, None)) in
  let server := mkServer 1 (mkRouterT 2 "/") None in
  let σ : gmap positive (list (string * WsNode)) :=
    <[1%positive := [("/", WsRef 2)]]> (<[2%positive := []]> ∅) in
  let σ' := <[2%positive := [("/late", WsFn late)]]> σ in
  let after := mkServer 1 (mkRouterT 2 "/") (Some []) in
  onUpgrade 1 None after σ' "/late" = Some (after, None).
Proof.
  intros late server σ σ' after.
  destruct (routes_fixed_at_first_upgrade 1 None server σ "/gateway" after None)
    as (tree & Htree & _ & Hlater).
  - vm_compute. reflexivity.
  - injection Htree as <-. exact (Hlater 1%nat σ' "/late").
Defined.

(** ** Uploaded files *)

(** X23: the check of [zodFile] accepts exactly the values that have an
    [error] listener and a mimetype that is the given type, or one of the
    given types; one type and the array holding only it accept the same
    values, and an empty array accepts none.  A value without [_events]
    makes the check throw instead of refusing. *)
Theorem zodFileCheck_accepts filetype v :
  (zodFileCheck filetype v = Some true ↔
   ∃ mime, v = WithEvents true (Some mime) ∧
           match filetype with
           | inl single => single = mime
           | inr several => mime ∈ several
           end) ∧
  (∀ single, zodFileCheck (inl single) v = zodFileCheck (inr [single]) v) ∧
  zodFileCheck (inr []) v ≠ Some true ∧
  zodFileCheck filetype NoEvents = None.
Proof.
  split; [|split; [|split]].
  - destruct v as [|[] [mime|]]; cbn; try (split; [done|by intros (? & [=] & _)]).
    + destruct filetype as [single|several]; cbn.
      * case_bool_decide as H; cbn.
        -- split; [|done]. intros _. by exists mime.
        -- split; [done|]. intros (? & [= <-] & ?). done.
      * case_bool_decide as H; cbn.
        -- split; [|done]. intros _. by exists mime.
        -- split; [done|]. intros (? & [= <-] & ?). done.
    + destruct filetype; cbn; (split; [done|]); by intros (? & [=] & _).
  - intros single. destruct v as [|[] [mime|]]; cbn; try done.
    case_bool_decide as H1; case_bool_decide as H2; try done;
      [destruct H2; subst; by left
      |apply list_elem_of_singleton in H2; by destruct H1].
  - destruct v as [|[] [mime|]]; cbn; done.
  - done.
Qed.
